(** * Edge admission filter ([src/middleware.ts]): a shallow embedding

    The middleware is a chain of checks (blocked country, user-agent
    allow-list, per-IP rate limit) followed by an attack detector that keeps
    two counters and a notification flag in a Redis store.  Everything the
    middleware shares between requests lives in that store, so the embedding
    threads an explicit [World] (store contents, rate-limiter records, clock,
    the outcome of the coming network round trips, and a log of what was
    executed) through a small exception/state monad. *)

From Stdlib Require Import ZArith NArith String Ascii List Lia Permutation.
From stdpp Require Import base option list gmap strings.

Local Open Scope Z_scope.

(** ** JavaScript values, as far as the middleware computes with them *)

Module Js.

(** Numbers are the integers (exact below 2^53) and NaN; the only
    non-integral number the source computes, [totalRequests / 60], is consumed
    at once by [toFixed(1)] and modelled together with it below. *)
Inductive value :=
| Null
| Bool (b : bool)
| Num (n : Z)
| NaN
| Str (s : string).

(** [!!v] *)
Definition truthy (v : value) : bool :=
  match v with
  | Null => false
  | Bool b => b
  | Num n => negb (n =? 0)
  | NaN => false
  | Str s => negb (String.eqb s "")
  end.

(** [v ?? d] *)
Definition nullish (v d : value) : value :=
  match v with Null => d | _ => v end.

(** [Number(v)]; a text held by a [Str] is never a numeric literal (see
    [Redis.rval]), so only the empty string converts to a number. *)
Definition to_number (v : value) : value :=
  match v with
  | Null => Num 0
  | Bool b => Num (if b then 1 else 0)
  | Num n => Num n
  | NaN => NaN
  | Str s => if String.eqb s "" then Num 0 else NaN
  end.

(** [v > k] for a number [k] *)
Definition gt (v : value) (k : Z) : bool :=
  match to_number v with
  | Num n => k <? n
  | _ => false
  end.

(** [a - b] *)
Definition sub (a b : value) : value :=
  match to_number a, to_number b with
  | Num x, Num y => Num (x - y)
  | _, _ => NaN
  end.

Definition is_space (c : ascii) : bool :=
  match c with
  | " "%char | "009"%char | "010"%char | "011"%char | "012"%char | "013"%char => true
  | _ => false
  end.

Definition digit (c : ascii) : option Z :=
  let n := Z.of_nat (nat_of_ascii c) in
  if (48 <=? n) && (n <=? 57) then Some (n - 48) else None.

Fixpoint skip_spaces (s : string) : string :=
  match s with
  | String c r => if is_space c then skip_spaces r else s
  | EmptyString => s
  end.

Fixpoint digits (s : string) (acc : option Z) : option Z :=
  match s with
  | String c r =>
      match digit c with
      | Some d => digits r (Some (10 * default 0 acc + d))
      | None => acc
      end
  | EmptyString => acc
  end.

(** [parseInt(s)] on a string: leading white space, an optional sign and
    the longest run of decimal digits (the [0x] prefix is not modelled). *)
Definition parse_int_string (s : string) : value :=
  let s := skip_spaces s in
  let '(neg, body) :=
    match s with
    | String "-"%char r => (true, r)
    | String "+"%char r => (false, r)
    | _ => (false, s)
    end in
  match digits body None with
  | Some n => Num (if neg then - n else n)
  | None => NaN
  end.

(** [parseInt(v)]: the argument is converted to a string first. *)
Definition parseInt (v : value) : value :=
  match v with
  | Num n => Num n
  | Str s => parse_int_string s
  | Null | Bool _ | NaN => NaN
  end.

(** *** [(a / b).toFixed(1)] for integers [a] and [b > 0]

    The quotient is the binary64 number nearest to a/b (ties to even), and
    [toFixed(1)] prints the multiple of 1/10 nearest to that binary64 number
    (the larger one on a tie).  Both steps are exact integer computations. *)

(** nearest integer to the positive rational n/d, ties to even *)
Definition rne (n d : Z) : Z :=
  let q := n / d in
  let r := n mod d in
  if 2 * r <? d then q
  else if d <? 2 * r then q + 1
  else if Z.even q then q else q + 1.

(** the [p] with 2^p <= a/b < 2^(p+1), for a, b > 0 *)
Definition binade (a b : Z) : Z :=
  let p := Z.log2 a - Z.log2 b in
  let below := if 0 <=? p then a <? b * 2 ^ p else a * 2 ^ (- p) <? b in
  if below then p - 1 else p.

(** the binary64 quotient of a, b > 0 as (m, s), standing for m / 2^s
    with a 53-bit [m] *)
Definition quotient64 (a b : Z) : Z * Z :=
  let s := 52 - binade a b in
  (if 0 <=? s then rne (a * 2 ^ s) b else rne a (b * 2 ^ (- s)), s).

(** number of tenths nearest to m / 2^s, the larger on a tie *)
Definition nearest_tenths (m s : Z) : Z :=
  if 0 <=? s then (20 * m + 2 ^ s) / 2 ^ (s + 1) else 10 * m * 2 ^ (- s).

(** The printed decimal: a sign and a number of tenths, or ["NaN"]. *)
Inductive fixed1 :=
| Tenths (minus : bool) (t : Z)
| FixedNaN.

Definition div_toFixed1 (v : value) (b : Z) : fixed1 :=
  match to_number v with
  | Num a =>
      if a =? 0 then Tenths false 0
      else let '(m, s) := quotient64 (Z.abs a) b in
           Tenths (a <? 0) (nearest_tenths m s)
  | _ => FixedNaN
  end.

(** [s.includes(sub)]: [sub] occurs in [s] as a contiguous run of
    characters, compared exactly (so case matters). *)
Fixpoint includes (s sub : string) : bool :=
  String.prefix sub s ||
  match s with
  | String _ r => includes r sub
  | EmptyString => false
  end.

End Js.

(** ** The Redis store *)

Module Redis.

(** What a key holds: the decimal text of an integer (the only texts
    [INCR] accepts, and what it writes) or any other text. *)
Inductive rval :=
| RInt (n : Z)
| RText (s : string).

(** A key's value and the milliseconds it has left to live, if it has an
    expiry. *)
Record entry := Entry { value : rval; ttl : option N }.

Inductive cmd :=
| INCR (k : string)
| EXPIRE_NX (k : string) (seconds : N)
| GET (k : string)
| SET_EX (k : string) (v : rval) (seconds : N).

Inductive reply :=
| Nil
| Integer (n : Z)
| Bulk (v : rval)
| OK
| Error.

Definition max_int64 : Z := 2 ^ 63 - 1.

Definition exec (c : cmd) (s : gmap string entry) : reply * gmap string entry :=
  match c with
  | INCR k =>
      match s !! k with
      | None => (Integer 1, <[k := Entry (RInt 1) None]> s)
      | Some (Entry (RInt n) t) =>
          if n <? max_int64
          then (Integer (n + 1), <[k := Entry (RInt (n + 1)) t]> s)
          else (Error, s)
      | Some (Entry (RText _) _) => (Error, s)
      end
  | EXPIRE_NX k seconds =>
      match s !! k with
      | Some (Entry v None) =>
          if (seconds =? 0)%N then (Integer 1, delete k s)
          else (Integer 1, <[k := Entry v (Some (1000 * seconds)%N)]> s)
      | _ => (Integer 0, s)
      end
  | GET k =>
      (match s !! k with Some e => Bulk (value e) | None => Nil end, s)
  | SET_EX k v seconds =>
      (OK, <[k := Entry v (Some (1000 * seconds)%N)]> s)
  end.

(** The commands of one request to the store run in order; a failing
    command does not stop or undo the others. *)
Fixpoint exec_all (cs : list cmd) (s : gmap string entry)
  : list (cmd * reply) * gmap string entry :=
  match cs with
  | [] => ([], s)
  | c :: cs' =>
      let '(r, s1) := exec c s in
      let '(rs, s2) := exec_all cs' s1 in
      ((c, r) :: rs, s2)
  end.

(** Passing of [d] milliseconds: keys whose time is up disappear. *)
Definition age (d : N) (e : entry) : option entry :=
  match ttl e with
  | None => Some e
  | Some t => if (t <=? d)%N then None else Some (Entry (value e) (Some (t - d)%N))
  end.

Definition elapse (d : N) (s : gmap string entry) : gmap string entry :=
  omap (age d) s.

Definition is_error (r : reply) : bool :=
  match r with Error => true | _ => false end.

(** What the client hands to JavaScript for a reply: it decodes JSON, so
    the texts [true], [false] and [null] come back as those values. *)
Definition decode_text (s : string) : Js.value :=
  if String.eqb s "true" then Js.Bool true
  else if String.eqb s "false" then Js.Bool false
  else if String.eqb s "null" then Js.Null
  else Js.Str s.

Definition decode (r : reply) : Js.value :=
  match r with
  | Nil => Js.Null
  | Integer n => Js.Num n
  | Bulk (RInt n) => Js.Num n
  | Bulk (RText s) => decode_text s
  | OK => Js.Str "OK"
  | Error => Js.Null
  end.

End Redis.

(** ** Requests, responses and the process environment *)

Record Geo := { country : option string }.

Record NextRequest := {
  ip : option string;
  geo : option Geo;
  user_agent : option string  (* the [user-agent] header *)
}.

Inductive NextResponse :=
| Next                                     (* [NextResponse.next()] *)
| Response (body : string) (status : Z).

Record ProcessEnv := {
  UPSTASH_REDIS_REST_URL : option string;
  UPSTASH_REDIS_REST_TOKEN : option string;
  TELEGRAM_BOT_TOKEN : option string;
  TELEGRAM_CHAT_ID : option string
}.

(** An environment variable counts when it is set to a non-empty string. *)
Definition given (v : option string) : bool :=
  match v with
  | Some s => negb (String.eqb s "")
  | None => false
  end.

(** ** Settings *)

Definition BLOCKED_COUNTRIES : list string :=
  ["VN"; "CN"; "IN"; "PK"; "BR"; "ID"; "TH"; "TR"; "EG"; "SC"; "IR"; "NG"; "RU"].

Definition ALLOWED_USER_AGENTS : list string :=
  ["Chrome"; "Firefox"; "Safari"; "Edg"; "OPR";
   "Googlebot"; "Bingbot"; "Slurp"; "DuckDuckBot"; "YandexBot"].

(** [{ requests: 10, window: '10 s' }], the window in milliseconds *)
Definition INDIVIDUAL_RATE_LIMIT_requests : Z := 10.
Definition INDIVIDUAL_RATE_LIMIT_window : N := 10000.

Definition ATTACK_THRESHOLD : Z := 10000.
Definition ATTACK_TIME_WINDOW_SECONDS : N := 60.

(** ** The world outside one invocation *)

(** The four values interpolated into the alert text (the fixed words of the
    template are left out). *)
Record Alert := {
  attackStrength : Js.fixed1;
  alertTotal : Js.value;
  alertBlocked : Js.value;
  alertPassed : Js.value
}.

Inductive Target := ToStore | ToLimiter | ToTelegram.

(** What the coming awaited calls will do: resolve, the reply arriving after
    [d] more milliseconds, however many, or fail, which is to say that the
    awaited promise rejects (as on a connection error).  A reply that is late or
    never comes is not a failure in this sense: the source sets no timeout on
    any call. *)
Inductive Event :=
| Tick (d : N)
| Fail.

Inductive LogEntry :=
| Ran (c : Redis.cmd) (r : Redis.reply)   (* the store executed a command that
                                             the middleware's own code sent *)
| Limited (key : string) (success : bool) (* [ratelimit.limit] resolved: all
                                             that the library did for the call *)
| Posted (a : Alert)                      (* Telegram received the message *)
| Lost (t : Target)                       (* an awaited call rejected *)
| Console (line : string).                (* [console.warn], [console.error] *)

(** Modelled from the spec: the rate limiter is the library
    [@upstash/ratelimit], whose code is not part of the repository.  The spec
    (sections 3 and 4.2) describes its state as a per-key record of a count and
    a window start, and its decision as: deny when the key's current window count
    would exceed the capacity, otherwise increment and let the request in. *)
Record RateLimitState := { count : Z; window_start : N }.

(** Modelled from the spec: the decision of section 4.2 on the record of
    section 3; a record whose window has elapsed counts as none. *)
Definition admission (capacity : Z) (window now : N) (st : option RateLimitState)
  : bool * RateLimitState :=
  let fresh := {| count := 0; window_start := now |} in
  let cur :=
    match st with
    | Some r => if (now <? window_start r + window)%N then r else fresh
    | None => fresh
    end in
  if count cur + 1 <=? capacity
  then (true, {| count := count cur + 1; window_start := window_start cur |})
  else (false, cur).

Record World := mkWorld {
  store : gmap string Redis.entry;
  limiter : gmap string RateLimitState;
  clock : N;
  sched : list Event;
  log : list LogEntry
}.

Definition set_store (s : gmap string Redis.entry) (w : World) : World :=
  mkWorld s (limiter w) (clock w) (sched w) (log w).
Definition set_limiter (l : gmap string RateLimitState) (w : World) : World :=
  mkWorld (store w) l (clock w) (sched w) (log w).
Definition set_sched (es : list Event) (w : World) : World :=
  mkWorld (store w) (limiter w) (clock w) es (log w).
Definition say (es : list LogEntry) (w : World) : World :=
  mkWorld (store w) (limiter w) (clock w) (sched w) (log w ++ es).
Definition pass (d : N) (w : World) : World :=
  mkWorld (Redis.elapse d (store w)) (limiter w) (clock w + d)%N (sched w) (log w).

(** ** Computations: a result or a thrown exception, and a new world *)

Inductive Outcome (A : Type) :=
| Ok (a : A)
| Threw.
Arguments Ok {A} a.
Arguments Threw {A}.

Definition M (A : Type) : Type := World -> Outcome A * World.

Definition ret {A} (a : A) : M A := fun w => (Ok a, w).

Definition bind {A B} (m : M A) (f : A -> M B) : M B :=
  fun w =>
    match m w with
    | (Ok a, w') => f a w'
    | (Threw, w') => (Threw, w')
    end.

(** [try { m } catch (error) { h }] *)
Definition catch {A} (m h : M A) : M A :=
  fun w =>
    match m w with
    | (Threw, w') => h w'
    | r => r
    end.

Definition console (line : string) : M unit :=
  fun w => (Ok tt, say [Console line] w).

Declare Scope js_scope.
Delimit Scope js_scope with js.
Notation "'let*' x ':=' m 'in' k" := (bind m (fun x => k))
  (at level 10, x name, m at level 100, k at level 200) : js_scope.
Notation "m ;; k" := (bind m (fun _ => k))
  (at level 100, k at level 200, right associativity) : js_scope.
Local Open Scope js_scope.

(** One [await] of a call to the outside: the next event of the schedule
    decides whether the call resolves (after some time) or its promise rejects;
    no such [await] of the middleware, [fetch] apart, is inside a [try].  Past
    its end the schedule goes on with [Tick 0]: no further delay and no
    failure. *)
Definition next_event (w : World) : Event := hd (Tick 0) (sched w).

(** The world in which a round trip arrives after [d] milliseconds. *)
Definition arrive (d : N) (w : World) : World :=
  pass d (set_sched (tl (sched w)) w).

Definition roundtrip {A} (t : Target) (serve : M A) : M A :=
  fun w =>
    match next_event w with
    | Tick d => serve (arrive d w)
    | Fail => (Threw, say [Lost t] (set_sched (tl (sched w)) w))
    end.

(** The next [n] events. *)
Fixpoint upcoming (n : nat) (es : list Event) : list Event :=
  match n with
  | O => []
  | S n' => hd (Tick 0) es :: upcoming n' (tl es)
  end.

(** ** The Redis client *)

Record RedisClient := { url : string; token : string }.

(** The store executes the commands [cs] of one request (a single command
    or a pipeline).  The client throws when a command replied with an error. *)
Definition execute (cs : list Redis.cmd) : M (list Js.value) :=
  fun w =>
    let '(rs, s') := Redis.exec_all cs (store w) in
    let w' := say (map (fun cr => Ran (fst cr) (snd cr)) rs) (set_store s' w) in
    if existsb (fun cr => Redis.is_error (snd cr)) rs
    then (Threw, w')
    else (Ok (map (fun cr => Redis.decode (snd cr)) rs), w').

Definition send (cs : list Redis.cmd) : M (list Js.value) :=
  roundtrip ToStore (execute cs).

Definition first (vs : list Js.value) : Js.value := nth 0 vs Js.Null.

Definition redis_incr (_ : RedisClient) (k : string) : M Js.value :=
  let* vs := send [Redis.INCR k] in ret (first vs).

Definition redis_get (_ : RedisClient) (k : string) : M Js.value :=
  let* vs := send [Redis.GET k] in ret (first vs).

(** [redis.set(k, v, { ex: seconds })] *)
Definition redis_set (_ : RedisClient) (k : string) (v : Redis.rval) (ex : N)
  : M Js.value :=
  let* vs := send [Redis.SET_EX k v ex] in ret (first vs).

(** ** The rate limiter handle *)

(** The options of [new Ratelimit({...})]; [requests] and [window] are the
    arguments of [Ratelimit.slidingWindow]. *)
Record Ratelimit := {
  rl_redis : RedisClient;
  requests : Z;
  window : N;
  analytics : bool;
  prefix : string
}.

(** Modelled from the spec: what the library does once its call got through.
    The library keeps its records in the same store, under its [prefix], with
    commands of its own ([analytics] adds more) and in as many requests as it
    needs; none of its code is in the repository.  The model keeps those
    records apart, in [limiter], decides by [admission], and logs the whole
    call as one [Limited] entry: it says nothing of the commands the library
    sends, of the number of its requests, or of a time limit the library may
    set itself. *)
Definition decide_limit (rl : Ratelimit) (key : string) : M bool :=
  fun w =>
    let '(success, st) :=
      admission (requests rl) (window rl) (clock w) (limiter w !! key) in
    (Ok success, say [Limited key success] (set_limiter (<[key := st]> (limiter w)) w)).

(** [await ratelimit.limit(key)] (line 89), of which the middleware reads
    [success].  The call is awaited outside any [try], so a promise that
    rejects is an exception of the middleware; a promise that resolves carries
    the library's decision, [decide_limit].  When the library's promise
    rejects, and what the library does about a reply that is late, is decided
    inside the library and not stated here. *)
Definition limit (rl : Ratelimit) (key : string) : M bool :=
  roundtrip ToLimiter (decide_limit rl key).

(** Module initialisation: both handles exist exactly when both store
    variables are set. *)
Definition redis (env : ProcessEnv) : option RedisClient :=
  match UPSTASH_REDIS_REST_URL env, UPSTASH_REDIS_REST_TOKEN env with
  | Some u, Some t =>
      if given (Some u) && given (Some t) then Some {| url := u; token := t |} else None
  | _, _ => None
  end.

Definition ratelimit (env : ProcessEnv) : option Ratelimit :=
  match redis env with
  | Some r =>
      Some {| rl_redis := r;
              requests := INDIVIDUAL_RATE_LIMIT_requests;
              window := INDIVIDUAL_RATE_LIMIT_window;
              analytics := true;
              prefix := "ratelimit" |}
  | None => None
  end.

(** ** The middleware *)

Definition totalKey : string := "attack:total".
Definition blockedKey : string := "attack:blocked".
Definition flagKey : string := "notification_sent_flag".

Record Counters := { totalRequests : Js.value; blockedRequests : Js.value }.

Definition getAttackCounters (redis : RedisClient) : M Counters :=
  let* replies :=
    send [Redis.INCR totalKey;
          Redis.EXPIRE_NX totalKey ATTACK_TIME_WINDOW_SECONDS;
          Redis.GET blockedKey;
          Redis.EXPIRE_NX blockedKey ATTACK_TIME_WINDOW_SECONDS] in
  let blocked := nth 2 replies Js.Null in
  let* got := redis_get redis totalKey in
  let currentTotal := Js.nullish got (Js.Num 1) in
  ret {| totalRequests := currentTotal;
         blockedRequests := Js.parseInt (Js.nullish blocked (Js.Str "0")) |}.

Definition incrementBlockedCounter (redis : RedisClient) : M unit :=
  redis_incr redis blockedKey ;; ret tt.

(** [fetch(url, { method: 'POST', ... })]: the promise rejects only when
    the request itself fails. *)
Definition fetch (text : Alert) : M unit :=
  roundtrip ToTelegram (fun w => (Ok tt, say [Posted text] w)).

Definition sendTelegramMessage (env : ProcessEnv) (text : Alert) : M unit :=
  if negb (given (TELEGRAM_BOT_TOKEN env)) || negb (given (TELEGRAM_CHAT_ID env))
  then console "Telegram credentials are not set. Cannot send notification."
  else catch (fetch text) (console "Failed to send Telegram message:").

(** [country && BLOCKED_COUNTRIES.includes(country)] *)
Definition country_blocked (c : option string) : bool :=
  match c with
  | Some c => negb (String.eqb c "") && bool_decide (c ∈ BLOCKED_COUNTRIES)
  | None => false
  end.

(** [allow.some(agent => userAgent.includes(agent))] *)
Definition some_includes (allow : list string) (userAgent : string) : bool :=
  existsb (fun agent => Js.includes userAgent agent) allow.

(** Step 4 of the middleware, the attack detector on the counters just
    read. *)
Definition detect (env : ProcessEnv) (redis : RedisClient) (c : Counters) : M unit :=
  if Js.gt (totalRequests c) ATTACK_THRESHOLD then
    let* notificationSent := redis_get redis flagKey in
    if negb (Js.truthy notificationSent) then
      let passedRequests := Js.sub (totalRequests c) (blockedRequests c) in
      let attackStrength :=
        Js.div_toFixed1 (totalRequests c) (Z.of_N ATTACK_TIME_WINDOW_SECONDS) in
      let message :=
        {| attackStrength := attackStrength;
           alertTotal := totalRequests c;
           alertBlocked := blockedRequests c;
           alertPassed := passedRequests |} in
      sendTelegramMessage env message ;;
      redis_set redis flagKey (Redis.RText "true") ATTACK_TIME_WINDOW_SECONDS ;;
      ret tt
    else ret tt
  else ret tt.

Definition middleware (env : ProcessEnv) (request : NextRequest) : M NextResponse :=
  match redis env, ratelimit env with
  | Some redis, Some ratelimit =>
      let ip := default "127.0.0.1" (ip request) in
      let country := geo request ≫= country in
      let userAgent :=
        match user_agent request with
        | Some s => if String.eqb s "" then "" else s
        | None => ""
        end in
      if country_blocked country then
        incrementBlockedCounter redis ;;
        ret (Response ("Access from country " +:+ default "" country +:+ " is denied.") 403)
      else
        let isAllowedUserAgent := some_includes ALLOWED_USER_AGENTS userAgent in
        if negb isAllowedUserAgent then
          incrementBlockedCounter redis ;;
          ret (Response "Your browser or bot is not allowed." 403)
        else
          let* success := limit ratelimit ip in
          if negb success then
            incrementBlockedCounter redis ;;
            ret (Response "Too many requests. Please try again later." 429)
          else
            let* counters := getAttackCounters redis in
            detect env redis counters ;;
            ret Next
  | _, _ => ret Next
  end.

(** * Vocabulary of the properties *)

(** ** Strings and store entries *)

(** [sub] occurs in [s]. *)
Definition occurs (sub s : string) : Prop :=
  exists pre post, s = pre +:+ sub +:+ post.

(** [INCR] can count at [k]: the key is free or holds an integer below the
    64-bit bound. *)
Definition countable (s : gmap string Redis.entry) (k : string) : Prop :=
  match s !! k with
  | None => True
  | Some e => exists n, Redis.value e = Redis.RInt n /\ n < Redis.max_int64
  end.

(** The integer an entry holds, 0 when there is none. *)
Definition count_of (o : option Redis.entry) : Z :=
  match o with
  | Some (Redis.Entry (Redis.RInt n) _) => n
  | _ => 0
  end.

(** The key a command works on. *)
Definition key_of (c : Redis.cmd) : string :=
  match c with
  | Redis.INCR k | Redis.EXPIRE_NX k _ | Redis.GET k | Redis.SET_EX k _ _ => k
  end.

(** The reply of [GET] for the entry found. *)
Definition lookup_reply (o : option Redis.entry) : Redis.reply :=
  match o with
  | Some e => Redis.Bulk (Redis.value e)
  | None => Redis.Nil
  end.

(** [EXPIRE k seconds NX] on the entry of [k], for [seconds > 0]. *)
Definition armed (seconds : N) (o : option Redis.entry) : option Redis.entry :=
  match o with
  | Some (Redis.Entry v None) => Some (Redis.Entry v (Some (1000 * seconds)%N))
  | _ => o
  end.

(** ** Weakest preconditions *)

(** [wp m Q E w]: run from [w], the computation [m] either returns a value
    and a world satisfying [Q], or throws in a world satisfying [E]. *)
Definition wp {A} (m : M A) (Q : A -> World -> Prop) (E : World -> Prop) (w : World)
  : Prop :=
  match m w with
  | (Ok a, w') => Q a w'
  | (Threw, w') => E w'
  end.

(** ** Worlds the middleware reaches *)

(** The world after a round trip to [t] was lost. *)
Definition lost (t : Target) (w : World) : World :=
  say [Lost t] (set_sched (tl (sched w)) w).

(** The world after a successful [INCR k] that arrived after [d]. *)
Definition counted (k : string) (d : N) (w : World) : World :=
  let s := store (arrive d w) in
  say [Ran (Redis.INCR k) (Redis.Integer (count_of (s !! k) + 1))]
    (set_store
       (<[k := Redis.Entry (Redis.RInt (count_of (s !! k) + 1)) (s !! k ≫= Redis.ttl)]> s)
       (arrive d w)).

(** ** Responses and paths *)

(** The three denials. *)
Definition country_denied (c : string) : NextResponse :=
  Response ("Access from country " +:+ c +:+ " is denied.") 403.
Definition identity_denied : NextResponse :=
  Response "Your browser or bot is not allowed." 403.
Definition rate_limited : NextResponse :=
  Response "Too many requests. Please try again later." 429.

(** The three values the middleware reads off the request. *)
Definition client_key (request : NextRequest) : string :=
  default "127.0.0.1" (ip request).
Definition origin (request : NextRequest) : option string :=
  geo request ≫= country.
Definition identity (request : NextRequest) : string :=
  default "" (user_agent request).

(** The handle that module initialisation builds around [r]. *)
Definition the_limiter (r : RedisClient) : Ratelimit :=
  {| rl_redis := r;
     requests := INDIVIDUAL_RATE_LIMIT_requests;
     window := INDIVIDUAL_RATE_LIMIT_window;
     analytics := true;
     prefix := "ratelimit" |}.

(** What runs once the country and identity checks have passed. *)
Definition checked_path (env : ProcessEnv) (r : RedisClient) (request : NextRequest)
  : M NextResponse :=
  let* success := limit (the_limiter r) (client_key request) in
  if negb success then incrementBlockedCounter r ;; ret rate_limited
  else let* counters := getAttackCounters r in detect env r counters ;; ret Next.

(** Every answer of the middleware, with the check that produced it. *)
Inductive answered (env : ProcessEnv) (request : NextRequest) : NextResponse -> Prop :=
| by_disabled :
    redis env = None -> answered env request Next
| by_country r c :
    redis env = Some r -> origin request = Some c -> c ∈ BLOCKED_COUNTRIES ->
    answered env request (country_denied c)
| by_identity r :
    redis env = Some r -> country_blocked (origin request) = false ->
    some_includes ALLOWED_USER_AGENTS (identity request) = false ->
    answered env request identity_denied
| by_rate_limit r :
    redis env = Some r -> country_blocked (origin request) = false ->
    some_includes ALLOWED_USER_AGENTS (identity request) = true ->
    answered env request rate_limited
| by_pass r :
    redis env = Some r -> country_blocked (origin request) = false ->
    some_includes ALLOWED_USER_AGENTS (identity request) = true ->
    answered env request Next.

(** ** Sample data *)

(** Everything configured; the store missing; Telegram missing. *)
Definition env_on : ProcessEnv :=
  {| UPSTASH_REDIS_REST_URL := Some "https://store.example";
     UPSTASH_REDIS_REST_TOKEN := Some "secret";
     TELEGRAM_BOT_TOKEN := Some "bot";
     TELEGRAM_CHAT_ID := Some "chat" |}.

Definition env_off : ProcessEnv :=
  {| UPSTASH_REDIS_REST_URL := None;
     UPSTASH_REDIS_REST_TOKEN := Some "secret";
     TELEGRAM_BOT_TOKEN := Some "bot";
     TELEGRAM_CHAT_ID := Some "chat" |}.

Definition env_mute : ProcessEnv :=
  {| UPSTASH_REDIS_REST_URL := Some "https://store.example";
     UPSTASH_REDIS_REST_TOKEN := Some "secret";
     TELEGRAM_BOT_TOKEN := None;
     TELEGRAM_CHAT_ID := Some "chat" |}.

(** The store handle of [env_on]. *)
Definition client_on : RedisClient :=
  {| url := "https://store.example"; token := "secret" |}.

(** A request from one address, with the given country and user agent. *)
Definition visit (c : option string) (ua : option string) : NextRequest :=
  {| ip := Some "203.0.113.7"; geo := Some {| country := c |}; user_agent := ua |}.

(** A user agent of the allow-list; a world with an empty store. *)
Definition chrome : string := "Mozilla/5.0 Chrome/120.0".

Definition fresh_world (es : list Event) : World := mkWorld ∅ ∅ 0 es [].

(** ** The detector *)

(** Both Telegram variables are set. *)
Definition telegram_given (env : ProcessEnv) : bool :=
  given (TELEGRAM_BOT_TOKEN env) && given (TELEGRAM_CHAT_ID env).

(** The message the detector composes from the counters. *)
Definition alert_of (c : Counters) : Alert :=
  {| attackStrength :=
       Js.div_toFixed1 (totalRequests c) (Z.of_N ATTACK_TIME_WINDOW_SECONDS);
     alertTotal := totalRequests c;
     alertBlocked := blockedRequests c;
     alertPassed := Js.sub (totalRequests c) (blockedRequests c) |}.

(** The entry that [redis.set] writes at the flag. *)
Definition flag_set : Redis.entry :=
  Redis.Entry (Redis.RText "true") (Some (1000 * ATTACK_TIME_WINDOW_SECONDS)%N).

(** The detector above the threshold, with the flag read as absent: the world
    in which the flag has just been written. *)
Definition flagged (w : World) : World :=
  say [Ran (Redis.SET_EX flagKey (Redis.RText "true") ATTACK_TIME_WINDOW_SECONDS) Redis.OK]
    (set_store (<[flagKey := flag_set]> (store w)) w).

(** A store in which [attack:total] stands at the threshold, 7 requests were
    blocked, and no alert has been sent. *)
Definition busy_world (es : list Event) : World :=
  mkWorld
    (<[totalKey := Redis.Entry (Redis.RInt 10000) (Some 30000%N)]>
       (<[blockedKey := Redis.Entry (Redis.RInt 7) (Some 30000%N)]> ∅))
    ∅ 0 es [].

(** Counters just above the threshold. *)
Definition counters_10001 : Counters :=
  {| totalRequests := Js.Num 10001; blockedRequests := Js.Num 7 |}.

(** The four commands of [getAttackCounters]' pipeline. *)
Definition pipeline : list Redis.cmd :=
  [Redis.INCR totalKey;
   Redis.EXPIRE_NX totalKey ATTACK_TIME_WINDOW_SECONDS;
   Redis.GET blockedKey;
   Redis.EXPIRE_NX blockedKey ATTACK_TIME_WINDOW_SECONDS].

(** The rest of the middleware after the rate limiter has let the request in. *)
Definition aggregate (env : ProcessEnv) (r : RedisClient) : M NextResponse :=
  let* counters := getAttackCounters r in detect env r counters ;; ret Next.

(** ** Several requests, time and predicates on worlds *)

(** The requests are served one after the other, each in the world the
    previous one left. *)
Fixpoint serve_all (env : ProcessEnv) (requests : list NextRequest) (w : World)
  : list (Outcome NextResponse) * World :=
  match requests with
  | [] => ([], w)
  | q :: qs =>
      let '(o, w1) := middleware env q w in
      let '(os, w2) := serve_all env qs w1 in
      (o :: os, w2)
  end.

(** The time the coming round trips will take altogether. *)
Fixpoint budget (es : list Event) : N :=
  match es with
  | [] => 0
  | Tick d :: rest => d + budget rest
  | Fail :: rest => budget rest
  end.

(** Log entries that come from [sendTelegramMessage]. *)
Definition from_telegram (e : LogEntry) : bool :=
  match e with
  | Posted _ | Lost ToTelegram | Console _ => true
  | _ => false
  end.

(** How many entries of the log come from [sendTelegramMessage]. *)
Definition telegram_activity (l : list LogEntry) : nat :=
  length (List.filter from_telegram l).

(** The entry outlives [d] more milliseconds. *)
Definition outlives (e : Redis.entry) (d : N) : Prop :=
  match Redis.ttl e with
  | Some t => (d < t)%N
  | None => True
  end.

(** The flag is set and will stay set throughout the schedule; [n] entries
    of the log come from [sendTelegramMessage]. *)
Definition muted (n : nat) (w : World) : Prop :=
  (exists e, store w !! flagKey = Some e /\
             Js.truthy (Redis.decode (Redis.Bulk (Redis.value e))) = true /\
             outlives e (budget (sched w))) /\
  telegram_activity (log w) = n.

(** The entry is free or holds a non-negative integer. *)
Definition counter_sane (o : option Redis.entry) : Prop :=
  match o with
  | None => True
  | Some e => exists n, Redis.value e = Redis.RInt n /\ 0 <= n
  end.

(** Both attack counters are absent or hold a non-negative integer. *)
Definition sane (s : gmap string Redis.entry) : Prop :=
  counter_sane (s !! totalKey) /\ counter_sane (s !! blockedKey).

(** Any command but [SET]. *)
Definition no_set (c : Redis.cmd) : Prop :=
  match c with
  | Redis.SET_EX _ _ _ => False
  | _ => True
  end.

(** The counters of the world's store are sane. *)
Definition sane_world (w : World) : Prop := sane (store w).

(** The world after the store has executed the pipeline. *)
Definition piped (w : World) : World :=
  let '(rs, s') := Redis.exec_all pipeline (store w) in
  say (map (fun cr => Ran (fst cr) (snd cr)) rs) (set_store s' w).

(** The pair [getAttackCounters] returns, from the two values read. *)
Definition counters_from (blocked got : Js.value) : Counters :=
  {| totalRequests := Js.nullish got (Js.Num 1);
     blockedRequests := Js.parseInt (Js.nullish blocked (Js.Str "0")) |}.

(** No round trip of the schedule is lost. *)
Definition no_fail (es : list Event) : Prop := Forall (fun e => e <> Fail) es.

(** The entry is free or an integer below [B]. *)
Definition below (B : Z) (o : option Redis.entry) : Prop :=
  match o with
  | None => True
  | Some e => exists n, Redis.value e = Redis.RInt n /\ n < B
  end.

(** Nothing will fail and both counters are below [B]. *)
Definition smooth (B : Z) (w : World) : Prop :=
  no_fail (sched w) /\
  below B (store w !! totalKey) /\ below B (store w !! blockedKey).

(** A successful [INCR] of [k]. *)
Definition is_incr (k : string) (e : LogEntry) : bool :=
  match e with
  | Ran (Redis.INCR k') (Redis.Integer _) => String.eqb k k'
  | _ => false
  end.

(** How many times the log shows [k] incremented. *)
Definition incr_count (k : string) (l : list LogEntry) : Z :=
  Z.of_nat (length (List.filter (is_incr k) l)).

(** Since the log was [L0], [attack:total] has been incremented [a] times
    and [attack:blocked] [b] times. *)
Definition since (L0 : list LogEntry) (a b : Z) (w : World) : Prop :=
  exists tr, log w = L0 ++ tr /\ incr_count totalKey tr = a /\ incr_count blockedKey tr = b.

(** The world after the rate limiter has decided. *)
Definition limited (rl : Ratelimit) (key : string) (w : World) : bool * World :=
  let '(success, st) := admission (requests rl) (window rl) (clock w) (limiter w !! key) in
  (success, say [Limited key success] (set_limiter (<[key := st]> (limiter w)) w)).

(** A lost round trip to the store or the rate limiter. *)
Definition is_store_loss (e : LogEntry) : bool :=
  match e with
  | Lost ToStore | Lost ToLimiter => true
  | _ => false
  end.

(** How many round trips to the store or the rate limiter the log shows
    lost. *)
Definition store_losses (l : list LogEntry) : nat :=
  length (List.filter is_store_loss l).

(** The log shows [n] such losses. *)
Definition unlost (n : nat) (w : World) : Prop := store_losses (log w) = n.

(** [attack:blocked] has counted [n] requests and has no expiry. *)
Definition unarmed (n : Z) (s : gmap string Redis.entry) : Prop :=
  s !! blockedKey =
    if n =? 0 then None else Some (Redis.Entry (Redis.RInt n) None).

(** The request was answered with a denial. *)
Definition is_denial (o : Outcome NextResponse) : Prop :=
  match o with
  | Ok (Response _ _) => True
  | _ => False
  end.

(** The limiter holds [rec] for [key], and the clock stays before [T]
    throughout the schedule. *)
Definition clocked (key : string) (rec : RateLimitState) (T : N) (w : World) : Prop :=
  limiter w !! key = Some rec /\ (clock w + budget (sched w) < T)%N.

(** [smooth] and [clocked] together. *)
Definition steady (key : string) (rec : RateLimitState) (T : N) (B : Z) (w : World) : Prop :=
  smooth B w /\ clocked key rec T w.

(** The request is from [key] and passes the country and identity checks. *)
Definition passes_checks (key : string) (q : NextRequest) : Prop :=
  client_key q = key /\
  country_blocked (origin q) = false /\
  some_includes ALLOWED_USER_AGENTS (identity q) = true.

(** The limiter's record of [i] requests in the window opened at [t0]. *)
Definition record (i : Z) (t0 : N) : RateLimitState :=
  {| count := i; window_start := t0 |}.

(** ** Vocabulary of the further properties *)

(** The value and expiry [EXPIRE k 60 NX] leaves at a key that [INCR] has
    just brought to [n]: an expiry already there is kept, else the window of
    60 seconds starts. *)
Definition windowed (n : Z) (before : option Redis.entry) : Redis.entry :=
  Redis.Entry (Redis.RInt n)
    (Some (default (1000 * ATTACK_TIME_WINDOW_SECONDS)%N (before ≫= Redis.ttl))).

(** A store in which [attack:total] is in the middle of its window and the
    flag was written 10 seconds ago. *)
Definition alerted_world (es : list Event) : World :=
  mkWorld
    (<[totalKey := Redis.Entry (Redis.RInt 20000) (Some 25000%N)]>
       (<[flagKey := Redis.Entry (Redis.RText "true") (Some 50000%N)]> ∅))
    ∅ 0 es [].

(** A store in which [attack:blocked] holds a text that is no integer. *)
Definition corrupt_world (es : list Event) : World :=
  mkWorld (<[blockedKey := Redis.Entry (Redis.RText "n/a") None]> ∅) ∅ 0 es [].

(** The window of the attack detector, in milliseconds. *)
Definition window_ms : N := (1000 * ATTACK_TIME_WINDOW_SECONDS)%N.

(** The entry is absent or will expire within the window. *)
Definition expiring (o : option Redis.entry) : Prop :=
  match o with
  | None => True
  | Some e => exists t, Redis.ttl e = Some t /\ (t <= window_ms)%N
  end.

(** The flag is absent, or holds ["true"] and will expire within the
    window. *)
Definition flag_sane (o : option Redis.entry) : Prop :=
  match o with
  | None => True
  | Some e => Redis.value e = Redis.RText "true" /\ expiring (Some e)
  end.

(** [attack:total] and the flag are on the clock. *)
Definition on_the_clock (s : gmap string Redis.entry) : Prop :=
  expiring (s !! totalKey) /\ flag_sane (s !! flagKey).

(** [attack:total] has counted [n] requests of a window that outlasts the
    schedule; before the first one the key is absent and the schedule is
    shorter than a window. *)
Definition tallied (n : Z) (w : World) : Prop :=
  if n =? 0
  then store w !! totalKey = None /\ (budget (sched w) < window_ms)%N
  else exists t,
         store w !! totalKey = Some (Redis.Entry (Redis.RInt n) (Some t)) /\
         (budget (sched w) < t)%N /\ (t <= window_ms)%N.

(** The alerts Telegram received, in order. *)
Definition alerts (tr : list LogEntry) : list Alert :=
  flat_map (fun e => match e with Posted a => [a] | _ => [] end) tr.

(** From [w] to [w'] the log grew by entries that all satisfy [G], and at
    most [p] alerts reached Telegram. *)
Definition footprint (p : nat) (G : LogEntry -> Prop) (w w' : World) : Prop :=
  exists tr, log w' = log w ++ tr /\ Forall G tr /\ (length (alerts tr) <= p)%nat.

(** The computation leaves such a footprint from every world, whether it
    returns or throws. *)
Definition leaves {A} (p : nat) (G : LogEntry -> Prop) (m : M A) : Prop :=
  forall w, footprint p G w (m w).2.

(** The commands that the middleware's own code sends to the store: those of
    [redis.incr], [redis.get], [redis.set] and the pipeline.  The commands of
    the rate-limiter library are not among them. *)
Definition own_command (c : Redis.cmd) : Prop :=
  In c [Redis.INCR totalKey;
        Redis.EXPIRE_NX totalKey ATTACK_TIME_WINDOW_SECONDS;
        Redis.GET blockedKey;
        Redis.EXPIRE_NX blockedKey ATTACK_TIME_WINDOW_SECONDS;
        Redis.GET totalKey;
        Redis.INCR blockedKey;
        Redis.GET flagKey;
        Redis.SET_EX flagKey (Redis.RText "true") ATTACK_TIME_WINDOW_SECONDS].

(** The alert reports a total above the threshold, that total over the
    window as its strength, and the total less the blocked as passed. *)
Definition well_founded_alert (a : Alert) : Prop :=
  Js.gt (alertTotal a) ATTACK_THRESHOLD = true /\
  attackStrength a = Js.div_toFixed1 (alertTotal a) (Z.of_N ATTACK_TIME_WINDOW_SECONDS) /\
  alertPassed a = Js.sub (alertTotal a) (alertBlocked a).

(** The log entries the middleware can cause. *)
Definition own_entry (e : LogEntry) : Prop :=
  match e with
  | Ran c _ => own_command c
  | Posted a => well_founded_alert a
  | _ => True
  end.

(** The country check or the identity check denies the request. *)
Definition denied_outright (request : NextRequest) : bool :=
  country_blocked (origin request) ||
  negb (some_includes ALLOWED_USER_AGENTS (identity request)).

(** * Properties *)

(** ** Strings *)

Lemma append_cons c s t : String c s +:+ t = String c (s +:+ t).
Proof. reflexivity. Qed.

Lemma prefix_true sub s :
  String.prefix sub s = true <-> exists post, s = sub +:+ post.
Proof.
  revert s. induction sub as [|c sub IH]; intros s.
  - split; [intros _; now exists s | intros _; now destruct s].
  - destruct s as [|c' s]; simpl.
    + split; [discriminate | intros [post H]; discriminate].
    + destruct (Ascii.ascii_dec c c') as [->|Hne].
      * rewrite IH. split; intros [post H]; exists post;
          rewrite append_cons in *; congruence.
      * split; [discriminate | intros [post H]; rewrite append_cons in H; congruence].
Qed.

Lemma includes_nil sub : Js.includes "" sub = String.prefix sub "" || false.
Proof. reflexivity. Qed.

Lemma includes_cons c s sub :
  Js.includes (String c s) sub = String.prefix sub (String c s) || Js.includes s sub.
Proof. reflexivity. Qed.

Lemma includes_occurs s sub : Js.includes s sub = true <-> occurs sub s.
Proof.
  induction s as [|c s IH].
  - rewrite includes_nil, orb_false_r, prefix_true. split.
    + intros [post H]. now exists "", post.
    + intros [pre [post H]]. destruct pre; [now exists post | discriminate].
  - rewrite includes_cons, orb_true_iff, prefix_true, IH. split.
    + intros [[post H] | [pre [post H]]].
      * now exists "", post.
      * exists (String c pre), post. rewrite append_cons. now rewrite H.
    + intros [pre [post H]]. destruct pre as [|c' pre].
      * left. now exists post.
      * right. exists pre, post. rewrite append_cons in H. congruence.
Qed.

Lemma some_includes_true allow ua :
  some_includes allow ua = true <-> exists agent, In agent allow /\ occurs agent ua.
Proof.
  unfold some_includes. rewrite existsb_exists.
  split; intros [a [Hin H]]; exists a; (split; [exact Hin |]); now apply includes_occurs.
Qed.

Lemma some_includes_false allow ua :
  some_includes allow ua = false <-> forall agent, In agent allow -> ~ occurs agent ua.
Proof.
  rewrite <- not_true_iff_false, some_includes_true. split.
  - intros H a Hin Ho. apply H. now exists a.
  - intros H [a [Hin Ho]]. exact (H a Hin Ho).
Qed.

Lemma some_includes_perm l l' ua :
  Permutation l l' -> some_includes l ua = some_includes l' ua.
Proof.
  intros HP. apply eq_true_iff_eq. rewrite !some_includes_true.
  split; intros [a [Hin H]]; exists a; split; try exact H.
  - eapply Permutation_in; eassumption.
  - eapply Permutation_in; [apply Permutation_sym|]; eassumption.
Qed.

(** ** The store *)

Lemma lookup_elapse d (s : gmap string Redis.entry) k :
  Redis.elapse d s !! k = s !! k ≫= Redis.age d.
Proof. apply lookup_omap. Qed.

Lemma age_value d e e' : Redis.age d e = Some e' -> Redis.value e' = Redis.value e.
Proof.
  unfold Redis.age. destruct (Redis.ttl e) as [t|].
  - destruct (t <=? d)%N; [discriminate|]. now intros [= <-].
  - now intros [= <-].
Qed.

Lemma countable_elapse d s k : countable s k -> countable (Redis.elapse d s) k.
Proof.
  unfold countable. rewrite lookup_elapse.
  destruct (s !! k) as [e|]; simpl; [|trivial].
  destruct (Redis.age d e) as [e'|] eqn:E; [|trivial].
  intros [n [Hv Hn]]. exists n. split; [|exact Hn].
  now rewrite (age_value _ _ _ E).
Qed.

Lemma exec_INCR_countable s k :
  countable s k ->
  Redis.exec (Redis.INCR k) s =
    (Redis.Integer (count_of (s !! k) + 1),
     <[k := Redis.Entry (Redis.RInt (count_of (s !! k) + 1)) (s !! k ≫= Redis.ttl)]> s).
Proof.
  unfold countable. simpl. destruct (s !! k) as [[v t]|]; simpl.
  - intros [n [-> Hn]]. simpl. apply Z.ltb_lt in Hn. now rewrite Hn.
  - reflexivity.
Qed.

Lemma exec_other c s k : key_of c <> k -> (Redis.exec c s).2 !! k = s !! k.
Proof.
  intros Hk. destruct c as [k0|k0 secs|k0|k0 v secs]; simpl in *.
  - destruct (s !! k0) as [[[n|t] ttl]|]; simpl; try reflexivity.
    + destruct (n <? Redis.max_int64); simpl; [|reflexivity].
      now rewrite lookup_insert_ne.
    + now rewrite lookup_insert_ne.
  - destruct (s !! k0) as [[v [t|]]|]; simpl; try reflexivity.
    destruct (secs =? 0)%N; simpl.
    + now rewrite lookup_delete_ne.
    + now rewrite lookup_insert_ne.
  - reflexivity.
  - now rewrite lookup_insert_ne.
Qed.

Lemma exec_all_other cs s k :
  Forall (fun c => key_of c <> k) cs -> (Redis.exec_all cs s).2 !! k = s !! k.
Proof.
  revert s. induction cs as [|c cs IH]; intros s H; [reflexivity|].
  inversion H as [|? ? Hc Hcs]; subst. simpl.
  destruct (Redis.exec c s) as [r s1] eqn:E1.
  destruct (Redis.exec_all cs s1) as [rs s2] eqn:E2. simpl.
  change s2 with ((rs, s2).2). rewrite <- E2, IH by exact Hcs.
  change s1 with ((r, s1).2). rewrite <- E1. now apply exec_other.
Qed.

Lemma exec_GET s k : Redis.exec (Redis.GET k) s = (lookup_reply (s !! k), s).
Proof. reflexivity. Qed.

Lemma exec_EXPIRE_NX_lookup s k secs :
  secs <> 0%N -> (Redis.exec (Redis.EXPIRE_NX k secs) s).2 !! k = armed secs (s !! k).
Proof.
  intros Hs. simpl. destruct (s !! k) as [[v [t|]]|] eqn:E; simpl; try exact E.
  destruct (N.eqb_spec secs 0); [contradiction|]. simpl. now rewrite lookup_insert_eq.
Qed.

Lemma exec_EXPIRE_NX_reply s k secs :
  exists a, (Redis.exec (Redis.EXPIRE_NX k secs) s).1 = Redis.Integer a.
Proof.
  simpl. destruct (s !! k) as [[v [t|]]|]; simpl; eauto.
  destruct (secs =? 0)%N; simpl; eauto.
Qed.

(** ** Weakest preconditions *)

Lemma wp_ret {A} (a : A) Q E w : wp (ret a) Q E w = Q a w.
Proof. reflexivity. Qed.

Lemma wp_bind {A B} (m : M A) (f : A -> M B) Q E w :
  wp (bind m f) Q E w = wp m (fun a => wp (f a) Q E) E w.
Proof. unfold wp, bind. now destruct (m w) as [[a|] w']. Qed.

Lemma wp_catch {A} (m h : M A) Q E w :
  wp (catch m h) Q E w = wp m Q (wp h Q E) w.
Proof. unfold wp, catch. now destruct (m w) as [[a|] w']. Qed.

Lemma wp_console line Q E w : wp (console line) Q E w = Q tt (say [Console line] w).
Proof. reflexivity. Qed.

Lemma wp_roundtrip {A} t (serve : M A) Q E w :
  wp (roundtrip t serve) Q E w =
  match next_event w with
  | Tick d => wp serve Q E (arrive d w)
  | Fail => E (lost t w)
  end.
Proof. unfold wp at 1, roundtrip. now destruct (next_event w). Qed.

Lemma wp_mono {A} (m : M A) (Q Q' : A -> World -> Prop) (E E' : World -> Prop) w :
  (forall a w', Q a w' -> Q' a w') -> (forall w', E w' -> E' w') ->
  wp m Q E w -> wp m Q' E' w.
Proof. unfold wp. destruct (m w) as [[a|] w']; auto. Qed.

(** ** Single round trips *)

Lemma roundtrip_tick {A} t (serve : M A) w d :
  next_event w = Tick d -> roundtrip t serve w = serve (arrive d w).
Proof. unfold roundtrip. now intros ->. Qed.

Lemma roundtrip_fail {A} t (serve : M A) w :
  next_event w = Fail ->
  roundtrip t serve w = (Threw, say [Lost t] (set_sched (tl (sched w)) w)).
Proof. unfold roundtrip. now intros ->. Qed.

Lemma incrementBlockedCounter_tick r w d :
  next_event w = Tick d ->
  countable (store w) blockedKey ->
  incrementBlockedCounter r w = (Ok tt, counted blockedKey d w).
Proof.
  intros He Hc.
  unfold incrementBlockedCounter, redis_incr, send, bind.
  rewrite (roundtrip_tick _ _ _ _ He).
  unfold execute. cbn [Redis.exec_all].
  rewrite exec_INCR_countable by (apply countable_elapse; exact Hc).
  reflexivity.
Qed.

Lemma incrementBlockedCounter_fail r w :
  next_event w = Fail ->
  incrementBlockedCounter r w = (Threw, say [Lost ToStore] (set_sched (tl (sched w)) w)).
Proof.
  intros He. unfold incrementBlockedCounter, redis_incr, send, bind.
  now rewrite (roundtrip_fail _ _ _ He).
Qed.

(** ** The paths through the middleware *)

Lemma ratelimit_redis env r : redis env = Some r -> ratelimit env = Some (the_limiter r).
Proof. unfold ratelimit. now intros ->. Qed.

Lemma redis_None env :
  redis env = None <->
  given (UPSTASH_REDIS_REST_URL env) && given (UPSTASH_REDIS_REST_TOKEN env) = false.
Proof.
  unfold redis.
  destruct (UPSTASH_REDIS_REST_URL env) as [u|], (UPSTASH_REDIS_REST_TOKEN env) as [t|];
    simpl; try (rewrite ?andb_false_r; tauto).
  destruct (negb (String.eqb u "") && negb (String.eqb t "")); split; congruence.
Qed.

Lemma identity_or request :
  match user_agent request with
  | Some s => if String.eqb s "" then "" else s
  | None => ""
  end = identity request.
Proof.
  unfold identity. destruct (user_agent request) as [s|]; [|reflexivity].
  simpl. destruct (String.eqb_spec s ""); congruence.
Qed.

Lemma middleware_disabled env request :
  redis env = None -> middleware env request = ret Next.
Proof. unfold middleware. now intros ->. Qed.

Lemma middleware_country env r request c :
  redis env = Some r ->
  origin request = Some c ->
  country_blocked (Some c) = true ->
  middleware env request = (incrementBlockedCounter r ;; ret (country_denied c)).
Proof.
  intros Hr Hc Hb. unfold middleware. rewrite (ratelimit_redis _ _ Hr), Hr.
  fold (origin request). rewrite Hc, Hb. reflexivity.
Qed.

Lemma middleware_identity env r request :
  redis env = Some r ->
  country_blocked (origin request) = false ->
  some_includes ALLOWED_USER_AGENTS (identity request) = false ->
  middleware env request = (incrementBlockedCounter r ;; ret identity_denied).
Proof.
  intros Hr Hb Hu. unfold middleware. rewrite (ratelimit_redis _ _ Hr), Hr.
  fold (origin request). rewrite Hb, identity_or, Hu. reflexivity.
Qed.

Lemma middleware_checked env r request :
  redis env = Some r ->
  country_blocked (origin request) = false ->
  some_includes ALLOWED_USER_AGENTS (identity request) = true ->
  middleware env request = checked_path env r request.
Proof.
  intros Hr Hb Hu. unfold middleware. rewrite (ratelimit_redis _ _ Hr), Hr.
  fold (origin request). rewrite Hb, identity_or, Hu. reflexivity.
Qed.

Lemma country_blocked_Some c :
  country_blocked (Some c) = true <-> c ∈ BLOCKED_COUNTRIES.
Proof.
  unfold country_blocked. rewrite andb_true_iff, negb_true_iff, bool_decide_eq_true.
  split; [tauto|]. intros H. split; [|exact H].
  destruct (String.eqb_spec c ""); [|reflexivity].
  subst c. exfalso. revert H. unfold BLOCKED_COUNTRIES.
  rewrite !elem_of_cons, elem_of_nil. intuition discriminate.
Qed.

(** *** Inversion of computations *)

Lemma bind_Ok {A B} (m : M A) (f : A -> M B) w b w' :
  bind m f w = (Ok b, w') -> exists a w1, m w = (Ok a, w1) /\ f a w1 = (Ok b, w').
Proof.
  unfold bind. destruct (m w) as [[a|] w1]; [|discriminate].
  intros H. now exists a, w1.
Qed.

Lemma then_ret_Ok {A B} (m : M A) (x : B) w b w' :
  (m ;; ret x) w = (Ok b, w') -> b = x /\ exists a, m w = (Ok a, w').
Proof.
  intros H. apply bind_Ok in H as [a [w1 [Hm Hr]]].
  unfold ret in Hr. injection Hr as <- <-. split; [reflexivity | now exists a].
Qed.

Lemma checked_path_Ok env r request w resp w' :
  checked_path env r request w = (Ok resp, w') -> resp = rate_limited \/ resp = Next.
Proof.
  intros H. apply bind_Ok in H as [success [w1 [_ H]]].
  destruct success; simpl in H.
  - apply bind_Ok in H as [c [w2 [_ H]]]. apply then_ret_Ok in H as [-> _]. now right.
  - apply then_ret_Ok in H as [-> _]. now left.
Qed.

Lemma middleware_answered env request w resp w' :
  middleware env request w = (Ok resp, w') -> answered env request resp.
Proof.
  intros H. destruct (redis env) as [r|] eqn:Hr.
  2:{ rewrite (middleware_disabled _ _ Hr) in H. injection H as <- _.
      now apply by_disabled. }
  destruct (country_blocked (origin request)) eqn:Hb.
  - destruct (origin request) as [c|] eqn:Hc; [|discriminate].
    rewrite (middleware_country _ _ _ _ Hr Hc Hb) in H.
    apply then_ret_Ok in H as [-> _].
    eapply by_country; eauto. now apply country_blocked_Some.
  - destruct (some_includes ALLOWED_USER_AGENTS (identity request)) eqn:Hu.
    + rewrite (middleware_checked _ _ _ Hr Hb Hu) in H.
      apply checked_path_Ok in H as [-> | ->].
      * eapply by_rate_limit; eauto.
      * eapply by_pass; eauto.
    + rewrite (middleware_identity _ _ _ Hr Hb Hu) in H.
      apply then_ret_Ok in H as [-> _]. eapply by_identity; eauto.
Qed.

Lemma length_append s t : String.length (s +:+ t) = (String.length s + String.length t)%nat.
Proof. induction s as [|c s IH]; [reflexivity|]. rewrite append_cons. simpl. now rewrite IH. Qed.

Lemma append_cancel_r a b s : a +:+ s = b +:+ s -> a = b.
Proof.
  revert b. induction a as [|c a IH]; intros [|c' b] H.
  - reflexivity.
  - apply (f_equal String.length) in H. rewrite !length_append in H. simpl in H. lia.
  - apply (f_equal String.length) in H. rewrite !length_append in H. simpl in H. lia.
  - rewrite !append_cons in H. injection H as -> H. f_equal. now apply IH.
Qed.

Lemma country_denied_inj c c' : country_denied c = country_denied c' -> c = c'.
Proof.
  unfold country_denied. intros [= H].
  apply (append_cancel_r _ _ " is denied."). exact H.
Qed.

Lemma allow_list_misses_empty agent :
  In agent ALLOWED_USER_AGENTS -> ~ occurs agent "".
Proof.
  intros Hin [pre [post H]].
  assert (agent = "") as ->.
  { destruct pre; [|discriminate]. destruct agent; [reflexivity | discriminate]. }
  simpl in Hin. intuition discriminate.
Qed.

Lemma answered_country_denied env request c :
  answered env request (country_denied c) ->
  origin request = Some c /\ c ∈ BLOCKED_COUNTRIES.
Proof.
  intros H. remember (country_denied c) as resp eqn:E.
  destruct H as [| r c0 _ Hc Hin | | |]; try discriminate E.
  apply country_denied_inj in E. subst c0. now split.
Qed.

Lemma answered_identity_denied env request :
  answered env request identity_denied ->
  country_blocked (origin request) = false /\
  some_includes ALLOWED_USER_AGENTS (identity request) = false.
Proof.
  intros H. remember identity_denied as resp eqn:E.
  destruct H as [| r c0 _ Hc Hin | | |]; try discriminate E.
  now split.
Qed.

(** ** The store is not configured *)

(** C8: when the store handle is absent (one of the two store variables is
    unset or empty), every request is passed through and the world is left
    exactly as it was: no check runs, no command reaches the store, no
    rate-limiter record is written, no round trip is made and nothing is
    sent. *)
Theorem unconfigured_store_passes_through (env : ProcessEnv) :
  (redis env = None <->
     given (UPSTASH_REDIS_REST_URL env) && given (UPSTASH_REDIS_REST_TOKEN env) = false) /\
  (redis env = None ->
     forall request w, middleware env request w = (Ok Next, w)).
Proof.
  split; [apply redis_None|].
  intros H request w. now rewrite (middleware_disabled _ _ H).
Qed.

Lemma unconfigured_store_passes_through_witness :
  middleware env_off (visit (Some "RU") (Some "curl/8.0")) (fresh_world [Fail])
  = (Ok Next, fresh_world [Fail]).
Proof.
  apply (proj2 (unconfigured_store_passes_through env_off)). reflexivity.
Defined.

(** ** The country check *)

(** C5: the middleware answers with the country denial (status 403, the body
    naming the country) only if the request carries a country that is in
    [BLOCKED_COUNTRIES]; and with the store configured it does answer so for
    every such request, whatever its user agent and whatever the rate limiter
    holds, as soon as the single [INCR] of the blocked counter goes through.
    A request without a country is never answered with the country denial. *)
Theorem country_check_403 (env : ProcessEnv) (request : NextRequest) (w : World) :
  (forall c, (middleware env request w).1 = Ok (country_denied c) ->
     origin request = Some c /\ c ∈ BLOCKED_COUNTRIES) /\
  (forall r c d,
     redis env = Some r ->
     origin request = Some c -> c ∈ BLOCKED_COUNTRIES ->
     next_event w = Tick d -> countable (store w) blockedKey ->
     (middleware env request w).1 = Ok (country_denied c)) /\
  (origin request = None ->
     forall c, (middleware env request w).1 <> Ok (country_denied c)).
Proof.
  assert (Hinv : forall c, (middleware env request w).1 = Ok (country_denied c) ->
                  origin request = Some c /\ c ∈ BLOCKED_COUNTRIES).
  { intros c H. destruct (middleware env request w) as [o w'] eqn:E. simpl in H. subst o.
    apply middleware_answered in E. now apply answered_country_denied in E. }
  split; [exact Hinv|]. split.
  - intros r c d Hr Hc Hin He Hcnt.
    rewrite (middleware_country _ _ _ _ Hr Hc) by now apply country_blocked_Some.
    unfold bind. now rewrite (incrementBlockedCounter_tick _ _ _ He Hcnt).
  - intros Hc c H. apply Hinv in H as [H _]. congruence.
Qed.

Lemma country_check_403_witness :
  (middleware env_on (visit (Some "RU") (Some chrome)) (fresh_world [])).1
  = Ok (country_denied "RU").
Proof.
  apply (proj1 (proj2 (country_check_403 env_on (visit (Some "RU") (Some chrome))
                         (fresh_world []))) client_on "RU" 0%N).
  - reflexivity.
  - reflexivity.
  - apply (bool_decide_unpack _). vm_compute. exact I.
  - reflexivity.
  - unfold countable. simpl. rewrite lookup_empty. exact I.
Defined.

(** ** The identity check *)

(** C6: for a request that passes the country check, the middleware answers
    with the identity denial (status 403) exactly when no entry of
    [ALLOWED_USER_AGENTS] occurs, character for character, in the user-agent
    string: it answers so only then, and with the store configured it does
    answer so as soon as the single [INCR] of the blocked counter goes through.
    Whether some entry occurs does not depend on the order of the list, and an
    empty or missing user agent contains no entry, so it is denied. *)
Theorem identity_check_403 (env : ProcessEnv) (request : NextRequest) (w : World) :
  ((middleware env request w).1 = Ok identity_denied ->
     country_blocked (origin request) = false /\
     forall agent, In agent ALLOWED_USER_AGENTS -> ~ occurs agent (identity request)) /\
  (forall r d,
     redis env = Some r ->
     country_blocked (origin request) = false ->
     (forall agent, In agent ALLOWED_USER_AGENTS -> ~ occurs agent (identity request)) ->
     next_event w = Tick d -> countable (store w) blockedKey ->
     (middleware env request w).1 = Ok identity_denied) /\
  (forall allow allow' ua,
     Permutation allow allow' -> some_includes allow ua = some_includes allow' ua) /\
  (forall r d,
     redis env = Some r ->
     country_blocked (origin request) = false ->
     user_agent request = None \/ user_agent request = Some "" ->
     next_event w = Tick d -> countable (store w) blockedKey ->
     (middleware env request w).1 = Ok identity_denied).
Proof.
  assert (Hdeny : forall r d,
     redis env = Some r ->
     country_blocked (origin request) = false ->
     (forall agent, In agent ALLOWED_USER_AGENTS -> ~ occurs agent (identity request)) ->
     next_event w = Tick d -> countable (store w) blockedKey ->
     (middleware env request w).1 = Ok identity_denied).
  { intros r d Hr Hb Hu He Hcnt. apply some_includes_false in Hu.
    rewrite (middleware_identity _ _ _ Hr Hb Hu).
    unfold bind. now rewrite (incrementBlockedCounter_tick _ _ _ He Hcnt). }
  split; [|split; [exact Hdeny | split]].
  - intros H. destruct (middleware env request w) as [o w'] eqn:E. simpl in H. subst o.
    apply middleware_answered, answered_identity_denied in E as [Hb Hu].
    split; [exact Hb | now apply some_includes_false].
  - intros allow allow' ua. apply some_includes_perm.
  - intros r d Hr Hb Hua He Hcnt. apply (Hdeny r d); try assumption.
    assert (identity request = "") as ->
      by (unfold identity; destruct Hua as [-> | ->]; reflexivity).
    apply allow_list_misses_empty.
Qed.

Lemma identity_check_403_witness :
  (middleware env_on (visit None (Some "curl/8.0")) (fresh_world [])).1
  = Ok identity_denied.
Proof.
  apply (proj1 (proj2 (identity_check_403 env_on (visit None (Some "curl/8.0"))
                         (fresh_world []))) client_on 0%N).
  - reflexivity.
  - reflexivity.
  - apply some_includes_false. vm_compute. reflexivity.
  - reflexivity.
  - unfold countable. simpl. rewrite lookup_empty. exact I.
Defined.

(** ** Round trips of the client, step by step *)

Lemma set_store_same w : set_store (store w) w = w.
Proof. now destruct w. Qed.

Lemma redis_get_tick r k w d :
  next_event w = Tick d ->
  redis_get r k w =
    (Ok (Redis.decode (lookup_reply (store (arrive d w) !! k))),
     say [Ran (Redis.GET k) (lookup_reply (store (arrive d w) !! k))] (arrive d w)).
Proof.
  intros He. unfold redis_get, send, bind.
  rewrite (roundtrip_tick _ _ _ _ He). unfold execute.
  cbn [Redis.exec_all]. rewrite exec_GET. cbn [map fst snd existsb].
  rewrite set_store_same.
  now destruct (store (arrive d w) !! k).
Qed.

Lemma redis_get_fail r k w :
  next_event w = Fail -> redis_get r k w = (Threw, lost ToStore w).
Proof.
  intros He. unfold redis_get, send, bind. now rewrite (roundtrip_fail _ _ _ He).
Qed.

Lemma redis_set_tick r k v ex w d :
  next_event w = Tick d ->
  redis_set r k v ex w =
    (Ok (Js.Str "OK"),
     say [Ran (Redis.SET_EX k v ex) Redis.OK]
       (set_store (<[k := Redis.Entry v (Some (1000 * ex)%N)]> (store (arrive d w)))
          (arrive d w))).
Proof.
  intros He. unfold redis_set, send, bind.
  now rewrite (roundtrip_tick _ _ _ _ He).
Qed.

Lemma redis_set_fail r k v ex w :
  next_event w = Fail -> redis_set r k v ex w = (Threw, lost ToStore w).
Proof.
  intros He. unfold redis_set, send, bind. now rewrite (roundtrip_fail _ _ _ He).
Qed.

Lemma sendTelegramMessage_mute env text w :
  telegram_given env = false ->
  sendTelegramMessage env text w =
    (Ok tt, say [Console "Telegram credentials are not set. Cannot send notification."] w).
Proof.
  unfold telegram_given, sendTelegramMessage. intros H.
  rewrite <- negb_andb, H. reflexivity.
Qed.

Lemma sendTelegramMessage_tick env text w d :
  telegram_given env = true -> next_event w = Tick d ->
  sendTelegramMessage env text w = (Ok tt, say [Posted text] (arrive d w)).
Proof.
  unfold telegram_given, sendTelegramMessage. intros H He.
  rewrite <- negb_andb, H. simpl. unfold catch, fetch.
  now rewrite (roundtrip_tick _ _ _ _ He).
Qed.

Lemma sendTelegramMessage_fail env text w :
  telegram_given env = true -> next_event w = Fail ->
  sendTelegramMessage env text w =
    (Ok tt, say [Console "Failed to send Telegram message:"] (lost ToTelegram w)).
Proof.
  unfold telegram_given, sendTelegramMessage. intros H He.
  rewrite <- negb_andb, H. simpl. unfold catch, fetch.
  now rewrite (roundtrip_fail _ _ _ He).
Qed.

(** ** The alert *)

(** The detector below the threshold does nothing. *)
Lemma detect_below env r c w :
  Js.gt (totalRequests c) ATTACK_THRESHOLD = false -> detect env r c w = (Ok tt, w).
Proof. unfold detect. now intros ->. Qed.

(** The detector above the threshold, with the flag read as set. *)
Lemma detect_flagged env r c w d e :
  Js.gt (totalRequests c) ATTACK_THRESHOLD = true ->
  next_event w = Tick d ->
  store (arrive d w) !! flagKey = Some e ->
  Js.truthy (Redis.decode (Redis.Bulk (Redis.value e))) = true ->
  detect env r c w =
    (Ok tt, say [Ran (Redis.GET flagKey) (Redis.Bulk (Redis.value e))] (arrive d w)).
Proof.
  intros Hgt He Hf Ht. unfold detect. rewrite Hgt. unfold bind at 1.
  rewrite (redis_get_tick _ _ _ _ He), Hf. cbn [lookup_reply]. now rewrite Ht.
Qed.

Lemma detect_unflagged env r c w d :
  Js.gt (totalRequests c) ATTACK_THRESHOLD = true ->
  next_event w = Tick d ->
  store (arrive d w) !! flagKey = None ->
  detect env r c w =
    (sendTelegramMessage env (alert_of c) ;;
     redis_set r flagKey (Redis.RText "true") ATTACK_TIME_WINDOW_SECONDS ;;
     ret tt)
      (say [Ran (Redis.GET flagKey) Redis.Nil] (arrive d w)).
Proof.
  intros Hgt He Hf. unfold detect. rewrite Hgt. unfold bind at 1.
  rewrite (redis_get_tick _ _ _ _ He), Hf. reflexivity.
Qed.

(** ** The printed attack strength *)

Lemma rne_error n d : 0 < d -> - d <= 2 * (d * Js.rne n d - n) <= d.
Proof.
  intros Hd. unfold Js.rne.
  pose proof (Z.div_mod n d ltac:(lia)) as Hdm.
  pose proof (Z.mod_pos_bound n d Hd) as Hr.
  destruct (Z.ltb_spec (2 * (n mod d)) d).
  - nia.
  - destruct (Z.ltb_spec d (2 * (n mod d))).
    + nia.
    + destruct (Z.even (n / d)); nia.
Qed.

Lemma nearest_tenths_bounds m s :
  0 <= s ->
  2 * 2 ^ s * Js.nearest_tenths m s <= 20 * m + 2 ^ s
  < 2 * 2 ^ s * Js.nearest_tenths m s + 2 * 2 ^ s.
Proof.
  intros Hs. unfold Js.nearest_tenths.
  destruct (Z.leb_spec 0 s); [|lia].
  replace (2 ^ (s + 1)) with (2 * 2 ^ s) by (rewrite Z.pow_add_r; lia).
  assert (0 < 2 ^ s) by (apply Z.pow_pos_nonneg; lia).
  pose proof (Z.div_mod (20 * m + 2 ^ s) (2 * 2 ^ s) ltac:(lia)).
  pose proof (Z.mod_pos_bound (20 * m + 2 ^ s) (2 * 2 ^ s) ltac:(lia)).
  lia.
Qed.

Lemma binade_small a : 0 < a < 2 ^ 53 -> Js.binade a 60 <= 47.
Proof.
  intros [Ha Hb]. unfold Js.binade.
  assert (Z.log2 a < 53) by (apply Z.log2_lt_pow2; lia).
  change (Z.log2 60) with 5.
  destruct (if 0 <=? Z.log2 a - 5 then _ else _); lia.
Qed.

(** Above zero and below 2^53 requests, the printed strength is a multiple
    [n/10] of one tenth with |n/10 - t/60| <= 1/20, that is, t/60 rounded to
    one decimal place. *)
Lemma strength_rounds t :
  0 < t < 2 ^ 53 ->
  exists n, Js.div_toFixed1 (Js.Num t) 60 = Js.Tenths false n /\ -3 <= 6 * n - t <= 3.
Proof.
  intros Ht. unfold Js.div_toFixed1. cbn [Js.to_number].
  destruct (Z.eqb_spec t 0) as [|_]; [lia|].
  rewrite Z.abs_eq by lia. unfold Js.quotient64.
  pose proof (binade_small t Ht) as Hp.
  set (s := 52 - Js.binade t 60) in *.
  assert (Hs : 5 <= s) by lia.
  destruct (Z.leb_spec 0 s); [|lia].
  destruct (Z.ltb_spec t 0); [lia|].
  eexists. split; [reflexivity|].
  pose proof (rne_error (t * 2 ^ s) 60 ltac:(lia)) as Hm.
  pose proof (nearest_tenths_bounds (Js.rne (t * 2 ^ s) 60) s ltac:(lia)) as Hn.
  assert (HP : 32 <= 2 ^ s).
  { change 32 with (2 ^ 5). apply Z.pow_le_mono_r; lia. }
  set (P := 2 ^ s) in *. set (m := Js.rne (t * P) 60) in *.
  set (k := Js.nearest_tenths m s) in *.
  split; nia.
Qed.

(** ** The notification *)

Lemma upcoming3 w e1 e2 e3 :
  upcoming 3 (sched w) = [e1; e2; e3] ->
  hd (Tick 0) (sched w) = e1 /\
  hd (Tick 0) (tl (sched w)) = e2 /\
  hd (Tick 0) (tl (tl (sched w))) = e3.
Proof. simpl. now intros [= H1 H2 H3]. Qed.

Lemma upcoming2 w e1 e2 :
  upcoming 2 (sched w) = [e1; e2] ->
  hd (Tick 0) (sched w) = e1 /\ hd (Tick 0) (tl (sched w)) = e2.
Proof. simpl. now intros [= H1 H2]. Qed.

(** C1: the detector (step 4 of the middleware, run on the counters that
    [getAttackCounters] has just read, for every request that passed the three
    checks).  With a total above [ATTACK_THRESHOLD]:
    - if the flag is absent when read, and the Telegram credentials are
      given and the round trips go through, exactly one alert is posted, made
      of the total, the blocked count, their difference and the strength
      total/60 to one decimal place, and after it the flag is written with a
      time to live of 60 seconds;
    - if the flag is set when read, the detector only reads it: nothing is
      posted and the store is left as it was, so the flag keeps the time it
      had left. *)
Theorem notification_once (env : ProcessEnv) (r : RedisClient) (c : Counters) (w : World) :
  Js.gt (totalRequests c) ATTACK_THRESHOLD = true ->
  (forall request,
     redis env = Some r ->
     country_blocked (origin request) = false ->
     some_includes ALLOWED_USER_AGENTS (identity request) = true ->
     middleware env request =
       (let* success := limit (the_limiter r) (client_key request) in
        if negb success then incrementBlockedCounter r ;; ret rate_limited
        else let* counters := getAttackCounters r in
             detect env r counters ;; ret Next)) /\
  (forall d1 d2 d3,
     upcoming 3 (sched w) = [Tick d1; Tick d2; Tick d3] ->
     telegram_given env = true ->
     Redis.elapse d1 (store w) !! flagKey = None ->
     exists w',
       detect env r c w = (Ok tt, w') /\
       log w' = log w ++
         [Ran (Redis.GET flagKey) Redis.Nil;
          Posted (alert_of c);
          Ran (Redis.SET_EX flagKey (Redis.RText "true") 60) Redis.OK] /\
       store w' !! flagKey = Some (Redis.Entry (Redis.RText "true") (Some 60000%N))) /\
  (forall t b,
     totalRequests c = Js.Num t -> blockedRequests c = Js.Num b -> t < 2 ^ 53 ->
     alertTotal (alert_of c) = Js.Num t /\
     alertBlocked (alert_of c) = Js.Num b /\
     alertPassed (alert_of c) = Js.Num (t - b) /\
     exists n, attackStrength (alert_of c) = Js.Tenths false n /\ -3 <= 6 * n - t <= 3) /\
  (forall d1 e,
     next_event w = Tick d1 ->
     Redis.elapse d1 (store w) !! flagKey = Some e ->
     Js.truthy (Redis.decode (Redis.Bulk (Redis.value e))) = true ->
     exists w',
       detect env r c w = (Ok tt, w') /\
       log w' = log w ++ [Ran (Redis.GET flagKey) (Redis.Bulk (Redis.value e))] /\
       store w' = Redis.elapse d1 (store w)).
Proof.
  intros Hgt. split; [|split; [|split]].
  - intros request Hr Hb Hu. now apply middleware_checked.
  - intros d1 d2 d3 Hup Htg Hflag.
    apply upcoming3 in Hup as [H1 [H2 H3]].
    rewrite (detect_unflagged env r c w d1 Hgt H1 Hflag).
    unfold bind at 1.
    rewrite (sendTelegramMessage_tick env _ _ d2 Htg) by exact H2.
    unfold bind at 1.
    rewrite (redis_set_tick r _ _ _ _ d3) by exact H3.
    eexists. split; [reflexivity|]. split.
    + simpl. now rewrite <- !app_assoc.
    + simpl. now rewrite lookup_insert_eq.
  - intros t b Ht Hb Hlt. unfold alert_of. cbn [alertTotal alertBlocked alertPassed attackStrength].
    rewrite Ht, Hb. repeat split.
    apply strength_rounds. unfold Js.gt in Hgt. rewrite Ht in Hgt. simpl in Hgt.
    apply Z.ltb_lt in Hgt. unfold ATTACK_THRESHOLD in Hgt. lia.
  - intros d1 e He Hf Ht.
    rewrite (detect_flagged env r c w d1 e Hgt He Hf Ht).
    eexists. split; [reflexivity|]. now split.
Qed.

Lemma notification_once_witness :
  exists w',
    detect env_on client_on counters_10001 (fresh_world []) = (Ok tt, w') /\
    log w' = log (fresh_world []) ++
      [Ran (Redis.GET flagKey) Redis.Nil;
       Posted (alert_of counters_10001);
       Ran (Redis.SET_EX flagKey (Redis.RText "true") 60) Redis.OK] /\
    store w' !! flagKey = Some (Redis.Entry (Redis.RText "true") (Some 60000%N)).
Proof.
  apply (proj1 (proj2 (notification_once env_on client_on counters_10001 (fresh_world [])
                         eq_refl)) 0%N 0%N 0%N).
  - reflexivity.
  - reflexivity.
  - unfold Redis.elapse. simpl. now rewrite omap_empty, lookup_empty.
Defined.

(** ** Invariants of the middleware

    [P] holds before the request has counted itself, [I] from then on, and
    [E] where an exception is thrown.  Whatever the primitive steps preserve,
    the middleware preserves. *)

Lemma wp_send cs Q E w :
  wp (send cs) Q E w =
  match next_event w with
  | Tick d => wp (execute cs) Q E (arrive d w)
  | Fail => E (lost ToStore w)
  end.
Proof. apply wp_roundtrip. Qed.

Section Invariant.

Variables (P I E : World -> Prop).

Hypothesis P_arrive : forall w d, P w -> next_event w = Tick d -> P (arrive d w).
Hypothesis I_arrive : forall w d, I w -> next_event w = Tick d -> I (arrive d w).
Hypothesis P_lost :
  forall w t, t <> ToTelegram -> P w -> next_event w = Fail -> E (lost t w).
Hypothesis I_lost : forall w, I w -> next_event w = Fail -> E (lost ToStore w).
Hypothesis P_count_blocked :
  forall w, P w -> wp (execute [Redis.INCR blockedKey]) (fun _ => I) E w.
Hypothesis P_pipeline :
  forall w, P w -> wp (execute pipeline) (fun _ => I) E w.
Hypothesis I_get :
  forall w k, I w -> I (say [Ran (Redis.GET k) (lookup_reply (store w !! k))] w).
Hypothesis I_detect :
  forall env r c w, I w -> wp (detect env r c) (fun _ => I) E w.

Lemma inv_incrementBlockedCounter r w :
  P w -> wp (incrementBlockedCounter r) (fun _ => I) E w.
Proof.
  intros HP. unfold incrementBlockedCounter, redis_incr.
  rewrite !wp_bind, wp_send. destruct (next_event w) eqn:He.
  - eapply wp_mono; [| |apply P_count_blocked, P_arrive; eassumption]; auto.
  - apply P_lost; [discriminate | assumption..].
Qed.

Lemma inv_redis_get r k w :
  I w -> wp (redis_get r k) (fun _ => I) E w.
Proof.
  intros HI. unfold wp. destruct (next_event w) eqn:He.
  - rewrite (redis_get_tick _ _ _ _ He). apply I_get. now apply I_arrive.
  - rewrite (redis_get_fail _ _ _ He). now apply I_lost.
Qed.

Lemma inv_getAttackCounters r w :
  P w -> wp (getAttackCounters r) (fun _ => I) E w.
Proof.
  intros HP. unfold getAttackCounters.
  rewrite wp_bind, wp_send. destruct (next_event w) eqn:He.
  - eapply wp_mono; [| |apply P_pipeline, P_arrive; eassumption]; [|auto].
    intros replies w1 HI. cbv beta. rewrite wp_bind.
    eapply wp_mono; [| |apply inv_redis_get; exact HI]; auto.
  - apply P_lost; [discriminate | assumption..].
Qed.

Lemma inv_aggregate env r w :
  P w -> wp (aggregate env r) (fun resp w' => resp = Next /\ I w') E w.
Proof.
  intros HP. unfold aggregate. rewrite wp_bind.
  eapply wp_mono; [| |apply inv_getAttackCounters; exact HP]; [|auto].
  intros c w1 HI. cbv beta. rewrite wp_bind.
  eapply wp_mono; [| |apply I_detect; exact HI]; [|auto].
  intros [] w2 HI2. rewrite wp_ret. now split.
Qed.

Hypothesis P_limit :
  forall rl key w, P w -> wp (decide_limit rl key) (fun _ => P) E w.

Lemma inv_middleware env request w :
  P w -> (P w -> I w) -> wp (middleware env request) (fun _ => I) E w.
Proof.
  intros HP HPI. destruct (redis env) as [r|] eqn:Hr.
  2:{ rewrite (middleware_disabled _ _ Hr), wp_ret. auto. }
  destruct (country_blocked (origin request)) eqn:Hb.
  - destruct (origin request) as [c|] eqn:Hc; [|discriminate].
    rewrite (middleware_country _ _ _ _ Hr Hc Hb), wp_bind.
    eapply wp_mono; [| |apply inv_incrementBlockedCounter; exact HP]; auto.
  - destruct (some_includes ALLOWED_USER_AGENTS (identity request)) eqn:Hu.
    + rewrite (middleware_checked _ _ _ Hr Hb Hu). unfold checked_path, limit.
      rewrite wp_bind, wp_roundtrip. destruct (next_event w) eqn:He.
      * eapply wp_mono; [| |apply P_limit, P_arrive; eassumption]; [|auto].
        intros success w1 HP1. cbv beta. destruct success; cbn [negb].
        -- fold (aggregate env r).
           eapply wp_mono; [| |apply inv_aggregate; exact HP1]; [|auto].
           now intros resp w2 [_ HI2].
        -- rewrite wp_bind.
           eapply wp_mono; [| |apply inv_incrementBlockedCounter; exact HP1]; auto.
      * apply P_lost; [discriminate | assumption..].
    + rewrite (middleware_identity _ _ _ Hr Hb Hu), wp_bind.
      eapply wp_mono; [| |apply inv_incrementBlockedCounter; exact HP]; auto.
Qed.

End Invariant.

(** ** Serving several requests, one after the other *)

Lemma budget_tick w d :
  next_event w = Tick d -> budget (sched w) = (d + budget (tl (sched w)))%N.
Proof.
  unfold next_event. destruct (sched w) as [|[d'|] rest]; simpl; try discriminate.
  - now intros [= <-].
  - now intros [= <-].
Qed.

Lemma budget_fail w : next_event w = Fail -> budget (tl (sched w)) = budget (sched w).
Proof.
  unfold next_event. destruct (sched w) as [|[d'|] rest]; simpl; try discriminate.
  reflexivity.
Qed.

(** ** While the flag lives, Telegram is left alone *)

Lemma telegram_activity_app l l' :
  telegram_activity (l ++ l') = (telegram_activity l + telegram_activity l')%nat.
Proof. unfold telegram_activity. now rewrite List.filter_app, length_app. Qed.

Lemma telegram_activity_ran (rs : list (Redis.cmd * Redis.reply)) :
  telegram_activity (map (fun cr => Ran (fst cr) (snd cr)) rs) = 0%nat.
Proof. induction rs as [|cr rs IH]; [reflexivity | exact IH]. Qed.

Lemma age_outlives e d b :
  outlives e (d + b) ->
  exists e', Redis.age d e = Some e' /\ Redis.value e' = Redis.value e /\ outlives e' b.
Proof.
  unfold outlives, Redis.age. destruct (Redis.ttl e) as [t|] eqn:Et.
  - intros H. destruct (N.leb_spec t d); [lia|].
    eexists. split; [reflexivity|]. simpl. split; [reflexivity | lia].
  - intros _. exists e. rewrite Et. now split.
Qed.

Lemma muted_arrive n w d : muted n w -> next_event w = Tick d -> muted n (arrive d w).
Proof.
  intros [[e [Hf [Ht Ho]]] Hn] He. split; [|exact Hn].
  rewrite (budget_tick _ _ He) in Ho.
  destruct (age_outlives _ _ _ Ho) as [e' [Ha [Hv Ho']]].
  exists e'. simpl. rewrite lookup_elapse, Hf. simpl. rewrite Hv. now split.
Qed.

Lemma muted_lost n w t :
  t <> ToTelegram -> muted n w -> next_event w = Fail -> muted n (lost t w).
Proof.
  intros Ht [[e [Hf [Htr Ho]]] Hn] He. split.
  - exists e. simpl. rewrite (budget_fail _ He). now split.
  - simpl. rewrite telegram_activity_app, Hn.
    destruct t; try congruence; unfold telegram_activity; simpl; lia.
Qed.

Lemma muted_execute n cs w :
  Forall (fun c => key_of c <> flagKey) cs ->
  muted n w -> wp (execute cs) (fun _ => muted n) (muted n) w.
Proof.
  intros Hcs [[e [Hf [Htr Ho]]] Hn]. unfold wp, execute.
  pose proof (exec_all_other cs (store w) flagKey Hcs) as Hl.
  destruct (Redis.exec_all cs (store w)) as [rs s'] eqn:Ex. simpl in Hl.
  assert (muted n (say (map (fun cr => Ran (fst cr) (snd cr)) rs) (set_store s' w))).
  { split.
    - exists e. simpl. rewrite Hl. now split.
    - simpl. now rewrite telegram_activity_app, telegram_activity_ran, Hn, Nat.add_0_r. }
  now destruct (existsb _ rs).
Qed.

Lemma muted_get n w k :
  muted n w -> muted n (say [Ran (Redis.GET k) (lookup_reply (store w !! k))] w).
Proof.
  intros [Hf Hn]. split; [exact Hf|].
  simpl. rewrite telegram_activity_app, Hn. unfold telegram_activity. simpl. lia.
Qed.

Lemma muted_detect n env r c w :
  muted n w -> wp (detect env r c) (fun _ => muted n) (muted n) w.
Proof.
  intros Hm. unfold wp.
  destruct (Js.gt (totalRequests c) ATTACK_THRESHOLD) eqn:Hgt.
  2:{ now rewrite (detect_below _ _ _ _ Hgt). }
  destruct (next_event w) eqn:He.
  - pose proof (muted_arrive _ _ _ Hm He) as Hm1.
    destruct Hm1 as [[e [Hf [Htr Ho]]] Hn].
    rewrite (detect_flagged env r c w d e Hgt He Hf Htr).
    split.
    + exists e. now split.
    + simpl in *. rewrite telegram_activity_app, Hn. unfold telegram_activity. simpl. lia.
  - unfold detect. rewrite Hgt. unfold bind. rewrite (redis_get_fail _ _ _ He).
    apply muted_lost; [discriminate | assumption..].
Qed.

Lemma muted_limit n rl key w :
  muted n w -> wp (decide_limit rl key) (fun _ => muted n) (muted n) w.
Proof.
  intros [Hf Hn]. unfold wp, decide_limit.
  destruct (admission _ _ _ _) as [success st]. split; [exact Hf|].
  simpl. rewrite telegram_activity_app, Hn. unfold telegram_activity. simpl. lia.
Qed.

Lemma muted_count_blocked n w :
  muted n w -> wp (execute [Redis.INCR blockedKey]) (fun _ => muted n) (muted n) w.
Proof. apply muted_execute. repeat constructor; discriminate. Qed.

Lemma muted_pipeline n w :
  muted n w -> wp (execute pipeline) (fun _ => muted n) (muted n) w.
Proof. apply muted_execute. repeat constructor; discriminate. Qed.

Lemma muted_middleware n env request w :
  muted n w -> muted n (middleware env request w).2.
Proof.
  intros Hm.
  assert (H : wp (middleware env request) (fun _ => muted n) (muted n) w).
  { apply (inv_middleware (muted n) (muted n) (muted n)); auto.
    - apply muted_arrive.
    - apply muted_arrive.
    - intros w0 t Ht. now apply muted_lost.
    - intros w0. now apply muted_lost.
    - apply muted_count_blocked.
    - apply muted_pipeline.
    - intros w0 k. apply muted_get.
    - apply muted_detect.
    - intros rl key w0. apply muted_limit. }
  unfold wp in H. now destruct (middleware env request w) as [[resp|] w'].
Qed.

Lemma muted_serve_all n env requests w :
  muted n w -> muted n (serve_all env requests w).2.
Proof.
  revert w. induction requests as [|q qs IH]; intros w Hm; [exact Hm|].
  simpl. pose proof (muted_middleware n env q w Hm) as H1.
  destruct (middleware env q w) as [o w1]. simpl in H1.
  specialize (IH w1 H1). now destruct (serve_all env qs w1) as [os w2].
Qed.

(** C9: above the threshold with the flag absent, the flag is written with
    its 60 seconds to live also when nothing was delivered: when the Telegram
    credentials are missing (the message is skipped with a warning) and when
    the delivery fails (the error is caught and logged).  And once the flag is
    set, no later request reaches [sendTelegramMessage] as long as the time
    that passes stays below the flag's 60 seconds: whatever requests are served
    and whatever fails on the way, the log gains no post, no failed delivery
    and no console line. *)
Theorem flag_set_without_delivery
  (env : ProcessEnv) (r : RedisClient) (c : Counters) (w : World) :
  Js.gt (totalRequests c) ATTACK_THRESHOLD = true ->
  (forall d1 d2,
     telegram_given env = false ->
     upcoming 2 (sched w) = [Tick d1; Tick d2] ->
     Redis.elapse d1 (store w) !! flagKey = None ->
     exists w',
       detect env r c w = (Ok tt, w') /\
       log w' = log w ++
         [Ran (Redis.GET flagKey) Redis.Nil;
          Console "Telegram credentials are not set. Cannot send notification.";
          Ran (Redis.SET_EX flagKey (Redis.RText "true") 60) Redis.OK] /\
       store w' !! flagKey = Some flag_set) /\
  (forall d1 d3,
     telegram_given env = true ->
     upcoming 3 (sched w) = [Tick d1; Fail; Tick d3] ->
     Redis.elapse d1 (store w) !! flagKey = None ->
     exists w',
       detect env r c w = (Ok tt, w') /\
       log w' = log w ++
         [Ran (Redis.GET flagKey) Redis.Nil;
          Lost ToTelegram;
          Console "Failed to send Telegram message:";
          Ran (Redis.SET_EX flagKey (Redis.RText "true") 60) Redis.OK] /\
       store w' !! flagKey = Some flag_set) /\
  (forall w1 requests,
     store w1 !! flagKey = Some flag_set ->
     (budget (sched w1) < 1000 * ATTACK_TIME_WINDOW_SECONDS)%N ->
     telegram_activity (log (serve_all env requests w1).2) = telegram_activity (log w1)).
Proof.
  intros Hgt. split; [|split].
  - intros d1 d2 Htg Hup Hflag.
    apply upcoming2 in Hup as [H1 H2].
    rewrite (detect_unflagged env r c w d1 Hgt H1 Hflag).
    unfold bind at 1. rewrite (sendTelegramMessage_mute env _ _ Htg).
    unfold bind at 1. rewrite (redis_set_tick r _ _ _ _ d2) by exact H2.
    eexists. split; [reflexivity|]. split.
    + simpl. now rewrite <- !app_assoc.
    + simpl. now rewrite lookup_insert_eq.
  - intros d1 d3 Htg Hup Hflag.
    apply upcoming3 in Hup as [H1 [H2 H3]].
    rewrite (detect_unflagged env r c w d1 Hgt H1 Hflag).
    unfold bind at 1. rewrite (sendTelegramMessage_fail env _ _ Htg) by exact H2.
    unfold bind at 1. rewrite (redis_set_tick r _ _ _ _ d3) by exact H3.
    eexists. split; [reflexivity|]. split.
    + simpl. now rewrite <- !app_assoc.
    + simpl. now rewrite lookup_insert_eq.
  - intros w1 requests Hf Hb.
    assert (Hm : muted (telegram_activity (log w1)) w1).
    { split; [|reflexivity]. exists flag_set. split; [exact Hf|]. split; [reflexivity|].
      exact Hb. }
    apply (muted_serve_all _ env requests) in Hm. exact (proj2 Hm).
Qed.

Lemma flag_set_without_delivery_witness :
  exists w',
    detect env_mute client_on counters_10001 (fresh_world []) = (Ok tt, w') /\
    log w' = log (fresh_world []) ++
      [Ran (Redis.GET flagKey) Redis.Nil;
       Console "Telegram credentials are not set. Cannot send notification.";
       Ran (Redis.SET_EX flagKey (Redis.RText "true") 60) Redis.OK] /\
    store w' !! flagKey = Some flag_set.
Proof.
  apply (proj1 (flag_set_without_delivery env_mute client_on counters_10001
                  (fresh_world []) eq_refl) 0%N 0%N).
  - reflexivity.
  - reflexivity.
  - unfold Redis.elapse. simpl. now rewrite omap_empty, lookup_empty.
Defined.

(** ** Invariants of the detector *)

Section Detector.

Variables (I E : World -> Prop).

Hypothesis I_arrive : forall w d, I w -> next_event w = Tick d -> I (arrive d w).
Hypothesis I_lost : forall w, I w -> next_event w = Fail -> E (lost ToStore w).
Hypothesis I_get :
  forall w k, I w -> I (say [Ran (Redis.GET k) (lookup_reply (store w !! k))] w).
Hypothesis I_post : forall w a, I w -> I (say [Posted a] w).
Hypothesis I_console : forall w line, I w -> I (say [Console line] w).
Hypothesis I_undelivered :
  forall w, I w -> next_event w = Fail -> I (lost ToTelegram w).
Hypothesis I_flagged : forall w, I w -> I (flagged w).

Lemma inv_sendTelegramMessage env text w :
  I w -> wp (sendTelegramMessage env text) (fun _ => I) E w.
Proof.
  intros HI. unfold wp. destruct (telegram_given env) eqn:Htg.
  - destruct (next_event w) eqn:He.
    + rewrite (sendTelegramMessage_tick _ _ _ _ Htg He). now apply I_post, I_arrive.
    + rewrite (sendTelegramMessage_fail _ _ _ Htg He). now apply I_console, I_undelivered.
  - rewrite (sendTelegramMessage_mute _ _ _ Htg). now apply I_console.
Qed.

Lemma inv_redis_set_flag r w :
  I w ->
  wp (redis_set r flagKey (Redis.RText "true") ATTACK_TIME_WINDOW_SECONDS)
     (fun _ => I) E w.
Proof.
  intros HI. unfold wp. destruct (next_event w) eqn:He.
  - rewrite (redis_set_tick _ _ _ _ _ _ He).
    apply (I_flagged (arrive d w)). now apply I_arrive.
  - rewrite (redis_set_fail _ _ _ _ _ He). now apply I_lost.
Qed.

Lemma inv_detect env r c w :
  I w -> wp (detect env r c) (fun _ => I) E w.
Proof.
  intros HI. unfold detect.
  destruct (Js.gt (totalRequests c) ATTACK_THRESHOLD); [|now rewrite wp_ret].
  rewrite wp_bind.
  eapply wp_mono;
    [| |apply (inv_redis_get I E I_arrive I_lost I_get); exact HI]; [|auto].
  intros v w1 HI1. cbv beta.
  destruct (Js.truthy v); cbn [negb]; [now rewrite wp_ret|].
  rewrite wp_bind.
  eapply wp_mono; [| |apply inv_sendTelegramMessage; exact HI1]; [|auto].
  intros [] w2 HI2. cbv beta. rewrite wp_bind.
  eapply wp_mono; [| |apply inv_redis_set_flag; exact HI2]; [|auto].
  intros v' w3 HI3. now rewrite wp_ret.
Qed.

End Detector.

(** ** The counters stay counters *)

Lemma counter_sane_age d o : counter_sane o -> counter_sane (o ≫= Redis.age d).
Proof.
  destruct o as [e|]; simpl; [|trivial].
  destruct (Redis.age d e) as [e'|] eqn:Ea; [|now intros _].
  intros [n [Hv Hn]]. exists n. rewrite (age_value _ _ _ Ea). now split.
Qed.

Lemma sane_elapse d s : sane s -> sane (Redis.elapse d s).
Proof. intros [H1 H2]. split; rewrite lookup_elapse; now apply counter_sane_age. Qed.

Lemma exec_counter_sane c s k :
  no_set c -> counter_sane (s !! k) -> counter_sane ((Redis.exec c s).2 !! k).
Proof.
  intros Hc Hs. destruct (decide (key_of c = k)) as [<-|Hne].
  2:{ now rewrite exec_other. }
  destruct c as [k|k secs|k|k v secs]; simpl in *; try contradiction.
  - destruct (s !! k) as [[[n|t] ttl]|] eqn:Ek; simpl.
    + destruct (n <? Redis.max_int64); simpl.
      * rewrite lookup_insert_eq. destruct Hs as [n' [[= <-] Hn]]. exists (n + 1).
        simpl. split; [reflexivity | lia].
      * now rewrite Ek.
    + now rewrite Ek.
    + rewrite lookup_insert_eq. exists 1. simpl. split; [reflexivity | lia].
  - destruct (s !! k) as [[v [t|]]|] eqn:Ek; simpl; try (now rewrite Ek).
    destruct (secs =? 0)%N; simpl.
    + now rewrite lookup_delete_eq.
    + rewrite lookup_insert_eq. exact Hs.
  - exact Hs.
Qed.

Lemma exec_all_sane cs s : Forall no_set cs -> sane s -> sane (Redis.exec_all cs s).2.
Proof.
  revert s. induction cs as [|c cs IH]; intros s Hcs Hs; [exact Hs|].
  inversion Hcs as [|? ? Hc Hcs']; subst. simpl.
  destruct (Redis.exec c s) as [r s1] eqn:E1.
  destruct (Redis.exec_all cs s1) as [rs s2] eqn:E2. simpl.
  change s2 with ((rs, s2).2). rewrite <- E2. apply IH; [exact Hcs'|].
  change s1 with ((r, s1).2). rewrite <- E1.
  destruct Hs as [H1 H2]. split; now apply exec_counter_sane.
Qed.

Lemma sane_execute cs w :
  Forall no_set cs -> sane_world w -> wp (execute cs) (fun _ => sane_world) sane_world w.
Proof.
  intros Hcs Hs. unfold wp, execute.
  pose proof (exec_all_sane cs (store w) Hcs Hs) as H.
  destruct (Redis.exec_all cs (store w)) as [rs s']. simpl in H.
  now destruct (existsb _ rs).
Qed.

Lemma sane_flagged w : sane_world w -> sane_world (flagged w).
Proof.
  intros [H1 H2]. split; simpl; rewrite lookup_insert_ne by discriminate; assumption.
Qed.

Lemma sane_middleware env request w :
  sane_world w -> sane_world (middleware env request w).2.
Proof.
  intros Hs.
  assert (Harrive : forall w d, sane_world w -> next_event w = Tick d -> sane_world (arrive d w)).
  { intros w0 d H _. now apply sane_elapse. }
  assert (H : wp (middleware env request) (fun _ => sane_world) sane_world w).
  { apply (inv_middleware sane_world sane_world sane_world); auto.
    - intros w0 H0. apply sane_execute; [|exact H0]. repeat constructor.
    - intros w0 H0. apply sane_execute; [|exact H0]. repeat constructor.
    - apply (inv_detect sane_world sane_world); auto. apply sane_flagged.
    - intros rl key w0 H0. unfold wp, decide_limit.
      now destruct (admission _ _ _ _). }
  unfold wp in H. now destruct (middleware env request w) as [[resp|] w'].
Qed.

(** ** Reading the counters *)

Lemma countable_dec s k : countable s k \/ ~ countable s k.
Proof.
  unfold countable. destruct (s !! k) as [[[n|t] ttl]|]; simpl.
  - destruct (Z.ltb_spec n Redis.max_int64).
    + left. now exists n.
    + right. intros [n' [[= <-] Hn]]. lia.
  - right. intros [n' [[=] _]].
  - now left.
Qed.

Lemma exec_INCR_uncountable s k :
  ~ countable s k -> Redis.exec (Redis.INCR k) s = (Redis.Error, s).
Proof.
  unfold countable. simpl. destruct (s !! k) as [[[n|t] ttl]|]; simpl.
  - intros H. destruct (Z.ltb_spec n Redis.max_int64); [|reflexivity].
    exfalso. apply H. now exists n.
  - reflexivity.
  - intros H. now exfalso.
Qed.

Lemma piped_countable w :
  countable (store w) totalKey ->
  let n := count_of (store w !! totalKey) + 1 in
  exists a1 a2,
    log (piped w) = log w ++
      [Ran (Redis.INCR totalKey) (Redis.Integer n);
       Ran (Redis.EXPIRE_NX totalKey ATTACK_TIME_WINDOW_SECONDS) (Redis.Integer a1);
       Ran (Redis.GET blockedKey) (lookup_reply (store w !! blockedKey));
       Ran (Redis.EXPIRE_NX blockedKey ATTACK_TIME_WINDOW_SECONDS) (Redis.Integer a2)] /\
    store (piped w) !! totalKey =
      armed ATTACK_TIME_WINDOW_SECONDS
        (Some (Redis.Entry (Redis.RInt n) (store w !! totalKey ≫= Redis.ttl))) /\
    store (piped w) !! blockedKey = armed ATTACK_TIME_WINDOW_SECONDS (store w !! blockedKey) /\
    execute pipeline w =
      (Ok [Js.Num n; Js.Num a1; Redis.decode (lookup_reply (store w !! blockedKey)); Js.Num a2],
       piped w).
Proof.
  intros Hc n. unfold piped, execute, pipeline. cbn [Redis.exec_all].
  rewrite (exec_INCR_countable _ _ Hc). fold n.
  set (s1 := <[totalKey := _]> (store w)).
  destruct (exec_EXPIRE_NX_reply s1 totalKey ATTACK_TIME_WINDOW_SECONDS) as [a1 Ha1].
  pose proof (exec_EXPIRE_NX_lookup s1 totalKey ATTACK_TIME_WINDOW_SECONDS ltac:(discriminate)) as Hl1.
  pose proof (exec_other (Redis.EXPIRE_NX totalKey ATTACK_TIME_WINDOW_SECONDS) s1 blockedKey
                ltac:(discriminate)) as Ho1.
  destruct (Redis.exec (Redis.EXPIRE_NX totalKey ATTACK_TIME_WINDOW_SECONDS) s1) as [r2 s2].
  simpl in Ha1, Hl1, Ho1. subst r2. rewrite exec_GET.
  destruct (exec_EXPIRE_NX_reply s2 blockedKey ATTACK_TIME_WINDOW_SECONDS) as [a2 Ha2].
  pose proof (exec_EXPIRE_NX_lookup s2 blockedKey ATTACK_TIME_WINDOW_SECONDS ltac:(discriminate)) as Hl2.
  pose proof (exec_other (Redis.EXPIRE_NX blockedKey ATTACK_TIME_WINDOW_SECONDS) s2 totalKey
                ltac:(discriminate)) as Ho2.
  destruct (Redis.exec (Redis.EXPIRE_NX blockedKey ATTACK_TIME_WINDOW_SECONDS) s2) as [r4 s4].
  simpl in Ha2, Hl2, Ho2. subst r4.
  assert (Hb : s2 !! blockedKey = store w !! blockedKey).
  { rewrite Ho1. unfold s1. now rewrite lookup_insert_ne by discriminate. }
  assert (Ht : s1 !! totalKey =
               Some (Redis.Entry (Redis.RInt n) (store w !! totalKey ≫= Redis.ttl))).
  { unfold s1. now rewrite lookup_insert_eq. }
  exists a1, a2. rewrite Hb. cbn [map fst snd existsb Redis.is_error orb Redis.decode].
  split; [reflexivity|]. split; [|split].
  - cbn [store say set_store]. now rewrite Ho2, Hl1, Ht.
  - cbn [store say set_store]. now rewrite Hl2, Hb.
  - destruct (lookup_reply (store w !! blockedKey)) eqn:Er; try reflexivity.
    destruct (store w !! blockedKey); discriminate.
Qed.

Lemma piped_uncountable w :
  ~ countable (store w) totalKey -> execute pipeline w = (Threw, piped w).
Proof.
  intros Hc. unfold piped, execute, pipeline. cbn [Redis.exec_all].
  rewrite (exec_INCR_uncountable _ _ Hc).
  destruct (Redis.exec (Redis.EXPIRE_NX totalKey ATTACK_TIME_WINDOW_SECONDS) (store w)) as [r2 s2].
  rewrite exec_GET.
  destruct (Redis.exec (Redis.EXPIRE_NX blockedKey ATTACK_TIME_WINDOW_SECONDS) s2) as [r4 s4].
  reflexivity.
Qed.

Lemma getAttackCounters_fail r w :
  next_event w = Fail -> getAttackCounters r w = (Threw, lost ToStore w).
Proof.
  intros He. unfold getAttackCounters, send, bind. now rewrite (roundtrip_fail _ _ _ He).
Qed.

Lemma getAttackCounters_error r w d :
  next_event w = Tick d -> ~ countable (store (arrive d w)) totalKey ->
  getAttackCounters r w = (Threw, piped (arrive d w)).
Proof.
  intros He Hc. unfold getAttackCounters, send, bind.
  rewrite (roundtrip_tick _ _ _ _ He). fold pipeline.
  now rewrite (piped_uncountable _ Hc).
Qed.

Lemma getAttackCounters_tick r w d :
  next_event w = Tick d -> countable (store (arrive d w)) totalKey ->
  getAttackCounters r w =
    (let* got := redis_get r totalKey in
     ret (counters_from (Redis.decode (lookup_reply (store (arrive d w) !! blockedKey))) got))
      (piped (arrive d w)).
Proof.
  intros He Hc. unfold getAttackCounters, send. unfold bind at 1.
  rewrite (roundtrip_tick _ _ _ _ He). fold pipeline.
  destruct (piped_countable _ Hc) as [a1 [a2 [_ [_ [_ Hx]]]]]. rewrite Hx.
  reflexivity.
Qed.

Lemma sched_piped w : sched (piped w) = sched w.
Proof.
  unfold piped. now destruct (Redis.exec_all pipeline (store w)) as [rs s'].
Qed.

Lemma next_event_piped w : next_event (piped w) = next_event w.
Proof. unfold next_event. now rewrite sched_piped. Qed.

Lemma reread_total w d n :
  (exists t, store w !! totalKey = Some (Redis.Entry (Redis.RInt n) t)) ->
  let rt := lookup_reply (store (arrive d w) !! totalKey) in
  rt = Redis.Nil \/ rt = Redis.Bulk (Redis.RInt n).
Proof.
  intros [t Ht]. simpl. rewrite lookup_elapse, Ht. simpl.
  destruct (Redis.age d _) as [e'|] eqn:Ea; [|now left].
  right. simpl. now rewrite (age_value _ _ _ Ea).
Qed.

Lemma armed_total secs n t :
  exists t', armed secs (Some (Redis.Entry (Redis.RInt n) t))
             = Some (Redis.Entry (Redis.RInt n) t').
Proof. destruct t; simpl; eauto. Qed.

Lemma blocked_default_sane o :
  counter_sane o ->
  exists b, Js.parseInt (Js.nullish (Redis.decode (lookup_reply o)) (Js.Str "0")) = Js.Num b
            /\ 0 <= b.
Proof.
  destruct o as [[v t]|]; simpl.
  - intros [n [Hv Hn]]. simpl in Hv. subst v. now exists n.
  - intros _. now exists 0.
Qed.

(** C10: [getAttackCounters] sends the pipeline (which increments
    [attack:total]) and then, in a round trip of its own, reads [attack:total]
    again.  The total it returns is what that second read replied, or 1 when
    the read found the key absent; the blocked count is what the pipeline read
    at [attack:blocked], or 0 when that key was absent.  Over a store whose
    counters are absent or non-negative integers (the empty store is one, and
    the middleware keeps it so) the returned total is at least 1 and the
    returned blocked count is at least 0. *)
Theorem counters_with_defaults (r : RedisClient) (w : World) :
  (forall d1 d2,
     upcoming 2 (sched w) = [Tick d1; Tick d2] ->
     countable (store w) totalKey ->
     exists c w' n a1 a2 rt,
       let rb := lookup_reply (Redis.elapse d1 (store w) !! blockedKey) in
       getAttackCounters r w = (Ok c, w') /\
       log w' = log w ++
         [Ran (Redis.INCR totalKey) (Redis.Integer n);
          Ran (Redis.EXPIRE_NX totalKey 60) (Redis.Integer a1);
          Ran (Redis.GET blockedKey) rb;
          Ran (Redis.EXPIRE_NX blockedKey 60) (Redis.Integer a2);
          Ran (Redis.GET totalKey) rt] /\
       (rt = Redis.Nil \/ rt = Redis.Bulk (Redis.RInt n)) /\
       totalRequests c = Js.nullish (Redis.decode rt) (Js.Num 1) /\
       blockedRequests c = Js.parseInt (Js.nullish (Redis.decode rb) (Js.Str "0")) /\
       (rt = Redis.Nil -> totalRequests c = Js.Num 1) /\
       (rb = Redis.Nil -> blockedRequests c = Js.Num 0)) /\
  (forall c w',
     getAttackCounters r w = (Ok c, w') -> sane (store w) ->
     exists t b,
       totalRequests c = Js.Num t /\ 1 <= t /\ blockedRequests c = Js.Num b /\ 0 <= b) /\
  (sane ∅ /\
   forall env request w0, sane (store w0) -> sane (store (middleware env request w0).2)).
Proof.
  split; [|split].
  - intros d1 d2 Hup Hc. apply upcoming2 in Hup as [H1 H2].
    pose proof (countable_elapse d1 _ _ Hc) as Hc1.
    rewrite (getAttackCounters_tick r w d1 H1 Hc1).
    destruct (piped_countable (arrive d1 w) Hc1) as [a1 [a2 [Hlog [Htot [_ _]]]]].
    unfold bind.
    rewrite (redis_get_tick r totalKey (piped (arrive d1 w)) d2)
      by (rewrite next_event_piped; exact H2).
    destruct (armed_total ATTACK_TIME_WINDOW_SECONDS
                (count_of (store (arrive d1 w) !! totalKey) + 1)
                (store (arrive d1 w) !! totalKey ≫= Redis.ttl)) as [t' Ht'].
    rewrite Ht' in Htot.
    pose proof (reread_total (piped (arrive d1 w)) d2 _ (ex_intro _ t' Htot)) as Hrt.
    cbv zeta in Hrt.
    set (rt := lookup_reply (store (arrive d2 (piped (arrive d1 w))) !! totalKey)) in *.
    eexists _, _, _, a1, a2, rt. cbv zeta.
    split; [reflexivity|]. split; [|split; [exact Hrt|]].
    + cbn [log say]. change (log (arrive d2 (piped (arrive d1 w)))) with (log (piped (arrive d1 w))).
      rewrite Hlog. now rewrite <- app_assoc.
    + cbn [totalRequests blockedRequests counters_from].
      split; [reflexivity|]. split; [reflexivity|]. split.
      * now intros ->.
      * intros Hb. change (Redis.elapse d1 (store w)) with (store (arrive d1 w)) in Hb.
        now rewrite Hb.
  - intros c w' Hrun Hs.
    destruct (next_event w) as [d1|] eqn:H1.
    2:{ rewrite (getAttackCounters_fail _ _ H1) in Hrun. discriminate. }
    destruct (countable_dec (store (arrive d1 w)) totalKey) as [Hc1|Hc1].
    2:{ rewrite (getAttackCounters_error _ _ _ H1 Hc1) in Hrun. discriminate. }
    rewrite (getAttackCounters_tick r w d1 H1 Hc1) in Hrun.
    destruct (piped_countable (arrive d1 w) Hc1) as [a1 [a2 [_ [Htot [_ _]]]]].
    unfold bind in Hrun.
    destruct (next_event (piped (arrive d1 w))) as [d2|] eqn:H2.
    2:{ rewrite (redis_get_fail _ _ _ H2) in Hrun. discriminate. }
    rewrite (redis_get_tick _ _ _ _ H2) in Hrun. unfold ret in Hrun.
    injection Hrun as <- _.
    pose proof (sane_elapse d1 _ Hs) as [Hs1 Hs2].
    change (Redis.elapse d1 (store w)) with (store (arrive d1 w)) in Hs1, Hs2.
    destruct (blocked_default_sane _ Hs2) as [b [Hb Hb0]].
    destruct (armed_total ATTACK_TIME_WINDOW_SECONDS
                (count_of (store (arrive d1 w) !! totalKey) + 1)
                (store (arrive d1 w) !! totalKey ≫= Redis.ttl)) as [t' Ht'].
    rewrite Ht' in Htot.
    assert (Hn : 0 <= count_of (store (arrive d1 w) !! totalKey)).
    { destruct (store (arrive d1 w) !! totalKey) as [[v t]|]; simpl; [|lia].
      destruct Hs1 as [n [Hv Hn]]. simpl in Hv. subst v. exact Hn. }
    cbn [totalRequests blockedRequests counters_from].
    change (Redis.elapse d1 (store w)) with (store (arrive d1 w)).
    change (Redis.elapse d2 (store (piped (arrive d1 w))))
      with (store (arrive d2 (piped (arrive d1 w)))).
    rewrite Hb.
    destruct (reread_total (piped (arrive d1 w)) d2 _ (ex_intro _ t' Htot)) as [Hr|Hr];
      rewrite Hr; cbn [Redis.decode Js.nullish].
    + exists 1, b. split; [reflexivity|]. split; [clear; lia|].
      split; [reflexivity | exact Hb0].
    + eexists _, b. split; [reflexivity|]. split; [clear - Hn; lia|].
      split; [reflexivity | exact Hb0].
  - split.
    + split; rewrite lookup_empty; exact I.
    + intros env request w0. apply sane_middleware.
Qed.

Lemma counters_with_defaults_witness :
  exists t b,
    totalRequests (counters_from Js.Null (Js.Num 1)) = Js.Num t /\ 1 <= t /\
    blockedRequests (counters_from Js.Null (Js.Num 1)) = Js.Num b /\ 0 <= b.
Proof.
  apply (proj1 (proj2 (counters_with_defaults client_on (fresh_world [])))
           (counters_from Js.Null (Js.Num 1))
           (getAttackCounters client_on (fresh_world [])).2).
  - vm_compute. reflexivity.
  - split; simpl; rewrite lookup_empty; exact I.
Defined.

(** ** Requests on which nothing fails *)

Lemma no_fail_next es : no_fail es -> hd (Tick 0) es <> Fail.
Proof. intros H. destruct es as [|e es]; [discriminate|]. now inversion H. Qed.

Lemma no_fail_tl es : no_fail es -> no_fail (tl es).
Proof. intros H. destruct es as [|e es]; [exact H|]. now inversion H. Qed.

Lemma below_countable B s k : B <= Redis.max_int64 -> below B (s !! k) -> countable s k.
Proof.
  unfold below, countable. intros HB. destruct (s !! k) as [e|]; [|trivial].
  intros [n [Hv Hn]]. exists n. split; [exact Hv | lia].
Qed.

Lemma below_mono B B' o : B <= B' -> below B o -> below B' o.
Proof.
  intros HB. destruct o as [e|]; [|trivial].
  intros [n [Hv Hn]]. exists n. split; [exact Hv | lia].
Qed.

Lemma below_age B d o : below B o -> below B (o ≫= Redis.age d).
Proof.
  destruct o as [e|]; simpl; [|trivial].
  destruct (Redis.age d e) as [e'|] eqn:Ea; [|now intros _].
  intros [n [Hv Hn]]. exists n. rewrite (age_value _ _ _ Ea). now split.
Qed.

Lemma below_armed B secs o : below B o -> below B (armed secs o).
Proof. destruct o as [[v [t|]]|]; simpl; auto. Qed.

Lemma smooth_mono B B' w : B <= B' -> smooth B w -> smooth B' w.
Proof. intros HB [H1 [H2 H3]]. repeat split; eauto using below_mono. Qed.

Lemma smooth_arrive B w d : smooth B w -> smooth B (arrive d w).
Proof.
  intros [H1 [H2 H3]]. split; [|split]; simpl.
  - now apply no_fail_tl.
  - rewrite lookup_elapse. now apply below_age.
  - rewrite lookup_elapse. now apply below_age.
Qed.

Lemma smooth_never_lost B w (X : Prop) : smooth B w -> next_event w = Fail -> X.
Proof. intros [H _] He. now apply no_fail_next in H. Qed.

Lemma smooth_limit B rl key w :
  smooth B w -> wp (decide_limit rl key) (fun _ => smooth B) (fun _ => False) w.
Proof. intros H. unfold wp, decide_limit. now destruct (admission _ _ _ _). Qed.

Lemma smooth_flagged B w : smooth B w -> smooth B (flagged w).
Proof.
  intros [H1 [H2 H3]]. split; [exact H1|].
  split; simpl; rewrite lookup_insert_ne by discriminate; assumption.
Qed.

Lemma smooth_count_blocked B w :
  0 < B <= Redis.max_int64 -> smooth B w ->
  wp (execute [Redis.INCR blockedKey]) (fun _ => smooth (B + 1)) (fun _ => False) w.
Proof.
  intros [HB0 HB] [H1 [H2 H3]]. unfold wp, execute. cbn [Redis.exec_all].
  rewrite (exec_INCR_countable _ _ (below_countable _ _ _ HB H3)).
  cbn [map fst snd existsb Redis.is_error orb].
  split; [exact H1|]. split; simpl.
  - rewrite lookup_insert_ne by discriminate. eapply below_mono; [|exact H2]. lia.
  - rewrite lookup_insert_eq. eexists. split; [reflexivity|].
    destruct (store w !! blockedKey) as [[v t]|]; simpl.
    + destruct H3 as [n [Hv Hn]]. simpl in Hv. subst v. lia.
    + lia.
Qed.

Lemma smooth_piped B w :
  0 < B <= Redis.max_int64 -> smooth B w ->
  wp (execute pipeline) (fun _ => smooth (B + 1)) (fun _ => False) w.
Proof.
  intros [HB0 HB] [H1 [H2 H3]]. unfold wp.
  pose proof (below_countable _ _ _ HB H2) as Hc.
  destruct (piped_countable w Hc) as [a1 [a2 [_ [Htot [Hblk Hx]]]]].
  rewrite Hx. split; [now rewrite sched_piped|]. split.
  - rewrite Htot.
    destruct (armed_total ATTACK_TIME_WINDOW_SECONDS (count_of (store w !! totalKey) + 1)
                (store w !! totalKey ≫= Redis.ttl)) as [t' ->].
    eexists. split; [reflexivity|].
    destruct (store w !! totalKey) as [[v t]|]; simpl.
    + destruct H2 as [n [Hv Hn]]. simpl in Hv. subst v. lia.
    + lia.
  - rewrite Hblk. apply below_armed. eapply below_mono; [|exact H3]. lia.
Qed.

Lemma smooth_detect B env r c w :
  smooth B w -> wp (detect env r c) (fun _ => smooth B) (fun _ => False) w.
Proof.
  apply (inv_detect (smooth B) (fun _ => False)).
  - intros w0 d H _. now apply smooth_arrive.
  - intros w0. apply smooth_never_lost.
  - intros w0 k H. exact H.
  - intros w0 a H. exact H.
  - intros w0 line H. exact H.
  - intros w0. apply smooth_never_lost.
  - apply smooth_flagged.
Qed.

(** With nothing failing and the counters below the 64-bit bound, the
    middleware answers. *)
Lemma smooth_middleware B env request w :
  0 < B <= Redis.max_int64 -> smooth B w ->
  exists resp w', middleware env request w = (Ok resp, w') /\ smooth (B + 1) w'.
Proof.
  intros HB Hs.
  assert (H : wp (middleware env request) (fun _ => smooth (B + 1)) (fun _ => False) w).
  { apply (inv_middleware (smooth B) (smooth (B + 1)) (fun _ => False)).
    - intros w0 d H _. now apply smooth_arrive.
    - intros w0 d H _. now apply smooth_arrive.
    - intros w0 t _. apply smooth_never_lost.
    - intros w0. apply smooth_never_lost.
    - intros w0. now apply smooth_count_blocked.
    - intros w0. now apply smooth_piped.
    - intros w0 k H. exact H.
    - intros env0 r c w0. apply smooth_detect.
    - intros rl key w0. apply smooth_limit.
    - exact Hs.
    - apply smooth_mono. lia. }
  unfold wp in H. destruct (middleware env request w) as [[resp|] w']; [|contradiction].
  now exists resp, w'.
Qed.

(** ** Which counter a request increments *)

Lemma incr_count_app k l l' : incr_count k (l ++ l') = incr_count k l + incr_count k l'.
Proof. unfold incr_count. rewrite List.filter_app, length_app. lia. Qed.

Lemma since_say L0 a b es w :
  incr_count totalKey es = 0 -> incr_count blockedKey es = 0 ->
  since L0 a b w -> since L0 a b (say es w).
Proof.
  intros H1 H2 [tr [Hl [Ha Hb]]]. exists (tr ++ es). simpl.
  rewrite Hl, <- app_assoc, !incr_count_app. repeat split; lia.
Qed.

Lemma since_piped L0 w :
  since L0 0 0 w -> wp (execute pipeline) (fun _ => since L0 1 0) (fun _ => True) w.
Proof.
  intros [tr [Hl [Ha Hb]]]. unfold wp.
  destruct (countable_dec (store w) totalKey) as [Hc|Hc].
  - destruct (piped_countable w Hc) as [a1 [a2 [Hlog [_ [_ Hx]]]]]. rewrite Hx.
    eexists. rewrite Hlog, Hl, <- app_assoc. split; [reflexivity|].
    rewrite !incr_count_app, Ha, Hb. split; reflexivity.
  - now rewrite (piped_uncountable w Hc).
Qed.

Lemma since_detect L0 a b env r c w :
  since L0 a b w -> wp (detect env r c) (fun _ => since L0 a b) (fun _ => True) w.
Proof.
  apply (inv_detect (since L0 a b) (fun _ => True)); auto.
  - intros w0 k. now apply since_say.
  - intros w0 x. now apply since_say.
  - intros w0 line. now apply since_say.
  - intros w0 H _. now apply (since_say L0 a b [Lost ToTelegram]).
  - intros w0 H. unfold flagged.
    apply since_say; [reflexivity | reflexivity |].
    destruct H as [tr H]. now exists tr.
Qed.

Lemma since_aggregate L0 env r w :
  since L0 0 0 w ->
  wp (aggregate env r) (fun resp w' => resp = Next /\ since L0 1 0 w') (fun _ => True) w.
Proof.
  apply (inv_aggregate (since L0 0 0) (since L0 1 0) (fun _ => True)); auto.
  - apply since_piped.
  - intros w0 k. now apply since_say.
  - intros env0 r0 c w0. apply since_detect.
Qed.

Lemma incrementBlockedCounter_Ok r w u w' :
  incrementBlockedCounter r w = (Ok u, w') ->
  exists d, next_event w = Tick d /\ countable (store (arrive d w)) blockedKey /\
            w' = counted blockedKey d w.
Proof.
  intros H. destruct (next_event w) as [d|] eqn:He.
  2:{ rewrite (incrementBlockedCounter_fail _ _ He) in H. discriminate. }
  exists d. split; [reflexivity|].
  destruct (countable_dec (store (arrive d w)) blockedKey) as [Hc|Hc].
  - split; [exact Hc|].
    unfold incrementBlockedCounter, redis_incr, send, bind in H.
    rewrite (roundtrip_tick _ _ _ _ He) in H. unfold execute in H.
    cbn [Redis.exec_all] in H. rewrite (exec_INCR_countable _ _ Hc) in H.
    simpl in H. now injection H as _ <-.
  - unfold incrementBlockedCounter, redis_incr, send, bind in H.
    rewrite (roundtrip_tick _ _ _ _ He) in H. unfold execute in H.
    cbn [Redis.exec_all] in H. rewrite (exec_INCR_uncountable _ _ Hc) in H.
    discriminate.
Qed.

Lemma counted_blocked d w :
  let n := count_of (store (arrive d w) !! blockedKey) + 1 in
  log (counted blockedKey d w) = log w ++ [Ran (Redis.INCR blockedKey) (Redis.Integer n)] /\
  store (counted blockedKey d w) !! blockedKey =
    Some (Redis.Entry (Redis.RInt n) (store (arrive d w) !! blockedKey ≫= Redis.ttl)) /\
  store (counted blockedKey d w) !! totalKey = store (arrive d w) !! totalKey.
Proof.
  unfold counted. cbn [log store say set_store]. split; [reflexivity|]. split.
  - now rewrite lookup_insert_eq.
  - now rewrite lookup_insert_ne by discriminate.
Qed.

Lemma limit_tick rl key w d :
  next_event w = Tick d ->
  limit rl key w = (Ok (limited rl key (arrive d w)).1, (limited rl key (arrive d w)).2).
Proof.
  intros He. unfold limit. rewrite (roundtrip_tick _ _ _ _ He).
  unfold decide_limit, limited. now destruct (admission _ _ _ _).
Qed.

Lemma limit_fail rl key w :
  next_event w = Fail -> limit rl key w = (Threw, lost ToLimiter w).
Proof. intros He. unfold limit. now rewrite (roundtrip_fail _ _ _ He). Qed.

Lemma limited_facts rl key w :
  let w1 := (limited rl key w).2 in
  log w1 = log w ++ [Limited key (limited rl key w).1] /\
  store w1 = store w /\ sched w1 = sched w /\ clock w1 = clock w.
Proof. unfold limited. now destruct (admission _ _ _ _). Qed.

(** C2: with the store configured, whenever the middleware answers:
    - a request that the country or the identity check denies has run
      exactly one command, the [INCR] of [attack:blocked], and is answered with
      the 403 of that check;
    - a request that passes both has asked the rate limiter once; if the
      limiter refused, the only command run is again the [INCR] of
      [attack:blocked] and the answer is the 429; if it agreed, the answer is
      the pass-through, [attack:total] was incremented exactly once and
      [attack:blocked] not at all.
    And the middleware does answer when no round trip fails and the counters
    can still count. *)
Theorem one_counter_per_request
  (env : ProcessEnv) (r : RedisClient) (request : NextRequest) (w : World) :
  redis env = Some r ->
  (country_blocked (origin request) = true \/
   some_includes ALLOWED_USER_AGENTS (identity request) = false ->
   forall resp w',
     middleware env request w = (Ok resp, w') ->
     (exists body, resp = Response body 403) /\
     exists n t,
       log w' = log w ++ [Ran (Redis.INCR blockedKey) (Redis.Integer n)] /\
       store w' !! blockedKey = Some (Redis.Entry (Redis.RInt n) t)) /\
  (country_blocked (origin request) = false ->
   some_includes ALLOWED_USER_AGENTS (identity request) = true ->
   forall resp w',
     middleware env request w = (Ok resp, w') ->
     exists success tr,
       log w' = log w ++ Limited (client_key request) success :: tr /\
       if success
       then resp = Next /\ incr_count totalKey tr = 1 /\ incr_count blockedKey tr = 0
       else resp = rate_limited /\
            exists n t,
              tr = [Ran (Redis.INCR blockedKey) (Redis.Integer n)] /\
              store w' !! blockedKey = Some (Redis.Entry (Redis.RInt n) t)) /\
  (no_fail (sched w) ->
   countable (store w) totalKey -> countable (store w) blockedKey ->
   exists resp w', middleware env request w = (Ok resp, w')).
Proof.
  intros Hr.
  assert (Hdeny : forall (resp0 resp : NextResponse) w',
            (incrementBlockedCounter r ;; ret resp0) w = (Ok resp, w') ->
            resp = resp0 /\
            exists n t,
              log w' = log w ++ [Ran (Redis.INCR blockedKey) (Redis.Integer n)] /\
              store w' !! blockedKey = Some (Redis.Entry (Redis.RInt n) t)).
  { intros resp0 resp w' H. apply then_ret_Ok in H as [-> [u H]].
    split; [reflexivity|].
    apply incrementBlockedCounter_Ok in H as [d [_ [_ ->]]].
    destruct (counted_blocked d w) as [Hl [Hs _]]. eauto. }
  split; [|split].
  - intros Hchk resp w' H.
    destruct (country_blocked (origin request)) eqn:Hb.
    + destruct (origin request) as [c|] eqn:Hc; [|discriminate].
      rewrite (middleware_country _ _ _ _ Hr Hc Hb) in H.
      apply Hdeny in H as [-> H]. split; [|exact H]. unfold country_denied. eauto.
    + destruct Hchk as [Hchk|Hu]; [discriminate|].
      rewrite (middleware_identity _ _ _ Hr Hb Hu) in H.
      apply Hdeny in H as [-> H]. split; [|exact H]. unfold identity_denied. eauto.
  - intros Hb Hu resp w' H.
    rewrite (middleware_checked _ _ _ Hr Hb Hu) in H. unfold checked_path in H.
    apply bind_Ok in H as [success [w1 [Hlim H]]].
    destruct (next_event w) as [d|] eqn:He.
    2:{ rewrite (limit_fail _ _ _ He) in Hlim. discriminate. }
    rewrite (limit_tick _ _ _ _ He) in Hlim. injection Hlim as <- <-.
    set (key := client_key request) in *.
    destruct (limited_facts (the_limiter r) key (arrive d w)) as [Hl1 _].
    cbv zeta in Hl1. change (log (arrive d w)) with (log w) in Hl1.
    destruct (limited (the_limiter r) key (arrive d w)) as [success w1] eqn:El.
    cbn [fst snd] in *. exists success. destruct success; cbn [negb] in H.
    + fold (aggregate env r) in H.
      pose proof (since_aggregate (log w1) env r w1) as Hagg.
      unfold wp in Hagg. rewrite H in Hagg.
      destruct Hagg as [-> [tr [Hl [Ha Hb']]]].
      { exists []. rewrite app_nil_r. now repeat split. }
      exists tr. rewrite Hl, Hl1, <- app_assoc. now repeat split.
    + apply then_ret_Ok in H as [-> [u H]].
      apply incrementBlockedCounter_Ok in H as [d2 [_ [_ ->]]].
      destruct (counted_blocked d2 w1) as [Hl [Hs _]].
      eexists. rewrite Hl, Hl1, <- app_assoc. split; [reflexivity|].
      split; [reflexivity|]. eauto.
  - intros Hnf Hct Hcb.
    assert (Hs : smooth Redis.max_int64 w).
    { split; [exact Hnf|]. split; [exact Hct | exact Hcb]. }
    destruct (smooth_middleware Redis.max_int64 env request w) as [resp [w' [H _]]];
      [unfold Redis.max_int64; lia | exact Hs | eauto].
Qed.

Lemma one_counter_per_request_witness :
  exists resp w',
    middleware env_on (visit (Some "US") (Some chrome)) (fresh_world []) = (Ok resp, w').
Proof.
  apply (proj2 (proj2 (one_counter_per_request env_on client_on
                         (visit (Some "US") (Some chrome)) (fresh_world []) eq_refl))).
  - constructor.
  - unfold countable. simpl. now rewrite lookup_empty.
  - unfold countable. simpl. now rewrite lookup_empty.
Defined.

(** ** When a call to the store fails *)

Lemma store_losses_app l l' :
  store_losses (l ++ l') = (store_losses l + store_losses l')%nat.
Proof. unfold store_losses. now rewrite List.filter_app, length_app. Qed.

Lemma store_losses_ran (rs : list (Redis.cmd * Redis.reply)) :
  store_losses (map (fun cr => Ran (fst cr) (snd cr)) rs) = 0%nat.
Proof. induction rs as [|cr rs IH]; [reflexivity | exact IH]. Qed.

Lemma unlost_say n es w : store_losses es = 0%nat -> unlost n w -> unlost n (say es w).
Proof. unfold unlost. simpl. intros H0 H. rewrite store_losses_app. lia. Qed.

Lemma unlost_execute n cs w :
  unlost n w -> wp (execute cs) (fun _ => unlost n) (fun _ => True) w.
Proof.
  intros H. unfold wp, execute.
  destruct (Redis.exec_all cs (store w)) as [rs s'].
  destruct (existsb _ rs); [exact I|].
  apply (unlost_say n _ (set_store s' w)); [apply store_losses_ran | exact H].
Qed.

Lemma unlost_middleware n env request w :
  unlost n w -> wp (middleware env request) (fun _ => unlost n) (fun _ => True) w.
Proof.
  intros H.
  apply (inv_middleware (unlost n) (unlost n) (fun _ => True)); auto.
  - intros w0. apply unlost_execute.
  - intros w0. apply unlost_execute.
  - intros w0 k. now apply unlost_say.
  - intros env0 r c w0. apply (inv_detect (unlost n) (fun _ => True)); auto.
    + intros w1 k. now apply unlost_say.
    + intros w1 a. now apply unlost_say.
    + intros w1 line. now apply unlost_say.
    + intros w1 H1 _. now apply (unlost_say n [Lost ToTelegram]).
    + intros w1 H1. unfold flagged. now apply unlost_say.
  - intros rl key w0 H0. unfold wp, decide_limit.
    destruct (admission _ _ _ _). now apply unlost_say.
Qed.

(** C4 does not hold of the code: the call of the rate-limit check fails
    (its promise rejects) and the request is not let through; the middleware
    throws. *)
Lemma failed_check_is_not_fail_open :
  middleware env_on (visit (Some "US") (Some chrome)) (fresh_world [Fail])
  = (Threw, lost ToLimiter (fresh_world [Fail])) /\
  ~ exists w',
      middleware env_on (visit (Some "US") (Some chrome)) (fresh_world [Fail])
      = (Ok Next, w').
Proof.
  assert (H : middleware env_on (visit (Some "US") (Some chrome)) (fresh_world [Fail])
              = (Threw, lost ToLimiter (fresh_world [Fail]))) by reflexivity.
  split; [exact H|]. intros [w' H']. rewrite H in H'. discriminate.
Qed.

(** C4, as the code has it: no call to the store or to the rate limiter is
    guarded.  With the store configured, a request whose first awaited call
    fails (its promise rejects) is not answered at all: the middleware throws,
    with the store and the rate limiter left as they were.  More generally the
    middleware answers only if none of the request's calls to the store or the
    rate limiter failed so, and an answer is always the pass-through, one of
    the two 403 responses or the 429 response.  Nothing is said of a reply that
    is late: the source sets no timeout, and [Fail] is a rejected promise. *)
Theorem store_failure_is_thrown (env : ProcessEnv) (request : NextRequest) (w : World) :
  (forall r,
     redis env = Some r -> next_event w = Fail ->
     exists t, t <> ToTelegram /\ middleware env request w = (Threw, lost t w)) /\
  (forall resp w',
     middleware env request w = (Ok resp, w') ->
     store_losses (log w') = store_losses (log w) /\
     (resp = Next \/ (exists c, resp = country_denied c) \/
      resp = identity_denied \/ resp = rate_limited)).
Proof.
  split.
  - intros r Hr He.
    destruct (country_blocked (origin request)) eqn:Hb.
    + destruct (origin request) as [c|] eqn:Hc; [|discriminate].
      exists ToStore. split; [discriminate|].
      rewrite (middleware_country _ _ _ _ Hr Hc Hb). unfold bind.
      now rewrite (incrementBlockedCounter_fail _ _ He).
    + destruct (some_includes ALLOWED_USER_AGENTS (identity request)) eqn:Hu.
      * exists ToLimiter. split; [discriminate|].
        rewrite (middleware_checked _ _ _ Hr Hb Hu). unfold checked_path, bind.
        now rewrite (limit_fail _ _ _ He).
      * exists ToStore. split; [discriminate|].
        rewrite (middleware_identity _ _ _ Hr Hb Hu). unfold bind.
        now rewrite (incrementBlockedCounter_fail _ _ He).
  - intros resp w' H. split.
    + pose proof (unlost_middleware _ env request w eq_refl) as Hw.
      unfold wp in Hw. now rewrite H in Hw.
    + apply middleware_answered in H.
      destruct H; eauto.
Qed.

Lemma store_failure_is_thrown_witness :
  exists t, t <> ToTelegram /\
    middleware env_on (visit (Some "RU") (Some chrome)) (fresh_world [Fail])
    = (Threw, lost t (fresh_world [Fail])).
Proof.
  apply (proj1 (store_failure_is_thrown env_on (visit (Some "RU") (Some chrome))
                  (fresh_world [Fail])) client_on); reflexivity.
Defined.

(** ** The blocked counter under denials only *)

Lemma unarmed_elapse n d s : unarmed n s -> unarmed n (Redis.elapse d s).
Proof.
  unfold unarmed. intros H. rewrite lookup_elapse, H. now destruct (n =? 0).
Qed.

Lemma unarmed_counted n d w :
  0 <= n -> unarmed n (store w) -> unarmed (n + 1) (store (counted blockedKey d w)).
Proof.
  intros Hn H. apply (unarmed_elapse n d) in H.
  change (Redis.elapse d (store w)) with (store (arrive d w)) in H.
  destruct (counted_blocked d w) as [_ [Hs _]]. unfold unarmed in *.
  rewrite Hs, H. destruct (Z.eqb_spec (n + 1) 0); [lia|].
  destruct (Z.eqb_spec n 0) as [->|]; reflexivity.
Qed.

Lemma unarmed_denied n env request w body status w' :
  0 <= n -> unarmed n (store w) ->
  middleware env request w = (Ok (Response body status), w') ->
  unarmed (n + 1) (store w').
Proof.
  intros Hn Hu H.
  assert (Hdeny : forall r (resp0 : NextResponse) w0,
            unarmed n (store w0) ->
            (incrementBlockedCounter r ;; ret resp0) w0 = (Ok (Response body status), w') ->
            unarmed (n + 1) (store w')).
  { intros r resp0 w0 Hu0 H0. apply then_ret_Ok in H0 as [_ [u H0]].
    apply incrementBlockedCounter_Ok in H0 as [d [_ [_ ->]]].
    now apply unarmed_counted. }
  destruct (redis env) as [r|] eqn:Hr.
  2:{ rewrite (middleware_disabled _ _ Hr) in H. discriminate. }
  destruct (country_blocked (origin request)) eqn:Hb.
  - destruct (origin request) as [c|] eqn:Hc; [|discriminate].
    rewrite (middleware_country _ _ _ _ Hr Hc Hb) in H. eapply Hdeny; eassumption.
  - destruct (some_includes ALLOWED_USER_AGENTS (identity request)) eqn:Hi.
    + rewrite (middleware_checked _ _ _ Hr Hb Hi) in H. unfold checked_path in H.
      apply bind_Ok in H as [success [w1 [Hlim H]]].
      destruct (next_event w) as [d|] eqn:He.
      2:{ rewrite (limit_fail _ _ _ He) in Hlim. discriminate. }
      rewrite (limit_tick _ _ _ _ He) in Hlim. injection Hlim as <- <-.
      destruct (limited_facts (the_limiter r) (client_key request) (arrive d w))
        as [_ [Hs _]]. cbv zeta in Hs.
      destruct (limited (the_limiter r) (client_key request) (arrive d w)) as [success w1].
      cbn [fst snd] in *. destruct success; cbn [negb] in H.
      * apply bind_Ok in H as [c [w2 [_ H]]]. apply then_ret_Ok in H as [[=] _].
      * eapply Hdeny; [|exact H]. rewrite Hs. now apply unarmed_elapse.
    + rewrite (middleware_identity _ _ _ Hr Hb Hi) in H. eapply Hdeny; eassumption.
Qed.

Lemma unarmed_serve_all env requests : forall n w,
  0 <= n -> unarmed n (store w) ->
  Forall is_denial (serve_all env requests w).1 ->
  unarmed (n + Z.of_nat (length requests)) (store (serve_all env requests w).2).
Proof.
  induction requests as [|q qs IH]; intros n w Hn Hu Hall.
  - simpl. now rewrite Z.add_0_r.
  - simpl in *. destruct (middleware env q w) as [o w1] eqn:Hq.
    specialize (IH (n + 1) w1).
    destruct (serve_all env qs w1) as [os w2]. simpl in *.
    inversion Hall as [|? ? Ho Hos]; subst.
    destruct o as [[|body status]|]; try contradiction.
    replace (n + Z.of_nat (S (length qs)))
      with (n + 1 + Z.of_nat (length qs)) by lia.
    apply IH; [lia | | exact Hos].
    eapply unarmed_denied; eassumption.
Qed.

(** C3 against the code: [incrementBlockedCounter] sends the single command
    [INCR attack:blocked] and no [EXPIRE]; the key keeps the expiry it had, and
    has none when the command creates it.  So when requests are only ever
    denied, from a store without the key, the counter holds the number of
    denials and never expires, however much time passes between them. *)
Theorem blocked_counter_is_never_armed (env : ProcessEnv) (r : RedisClient) :
  (forall w d,
     next_event w = Tick d -> countable (store w) blockedKey ->
     exists w',
       let before := Redis.elapse d (store w) !! blockedKey in
       incrementBlockedCounter r w = (Ok tt, w') /\
       log w' = log w ++
         [Ran (Redis.INCR blockedKey) (Redis.Integer (count_of before + 1))] /\
       store w' !! blockedKey =
         Some (Redis.Entry (Redis.RInt (count_of before + 1)) (before ≫= Redis.ttl))) /\
  (forall requests w,
     store w !! blockedKey = None ->
     Forall is_denial (serve_all env requests w).1 ->
     unarmed (Z.of_nat (length requests)) (store (serve_all env requests w).2)).
Proof.
  split.
  - intros w d He Hc. rewrite (incrementBlockedCounter_tick _ _ _ He Hc).
    eexists. cbv zeta. split; [reflexivity|].
    destruct (counted_blocked d w) as [Hl [Hs _]]. split; assumption.
  - intros requests w Hn Hall.
    apply (unarmed_serve_all env requests 0 w); [lia | exact Hn | exact Hall].
Qed.

Lemma blocked_counter_is_never_armed_witness :
  unarmed 3
    (store (serve_all env_on
              [visit (Some "RU") (Some chrome); visit None (Some "curl/8.0");
               visit (Some "CN") None]
              (fresh_world [Tick 1000; Tick 3600000; Tick 86400000])).2).
Proof.
  apply (proj2 (blocked_counter_is_never_armed env_on client_on)
           [visit (Some "RU") (Some chrome); visit None (Some "curl/8.0");
            visit (Some "CN") None]
           (fresh_world [Tick 1000; Tick 3600000; Tick 86400000])).
  - reflexivity.
  - vm_compute. repeat constructor.
Defined.

(** ** The rate limit *)

Lemma clocked_arrive key rec T w d :
  clocked key rec T w -> next_event w = Tick d -> clocked key rec T (arrive d w).
Proof.
  intros [Hl Hc] He. split; [exact Hl|]. simpl.
  rewrite (budget_tick _ _ He) in Hc. lia.
Qed.

Lemma steady_arrive key rec T B w d :
  steady key rec T B w -> next_event w = Tick d -> steady key rec T B (arrive d w).
Proof.
  intros [Hs Hc] He. split; [now apply smooth_arrive | now apply clocked_arrive].
Qed.

Lemma steady_never_lost key rec T B w (X : Prop) :
  steady key rec T B w -> next_event w = Fail -> X.
Proof. intros [Hs _] He. exact (smooth_never_lost B w X Hs He). Qed.

Lemma piped_frame w :
  limiter (piped w) = limiter w /\ clock (piped w) = clock w /\ sched (piped w) = sched w.
Proof. unfold piped. now destruct (Redis.exec_all pipeline (store w)). Qed.

Lemma steady_piped key rec T B w :
  0 < B <= Redis.max_int64 -> steady key rec T B w ->
  wp (execute pipeline) (fun _ => steady key rec T (B + 1)) (fun _ => False) w.
Proof.
  intros HB [Hs [Hl Hc]]. pose proof (smooth_piped B w HB Hs) as H.
  unfold wp in *. destruct (execute pipeline w) as [[vs|] w'] eqn:Ex; [|contradiction].
  assert (w' = piped w) as ->.
  { destruct Hs as [_ [H2 _]].
    destruct (piped_countable w (below_countable _ _ _ (proj2 HB) H2)) as [? [? [_ [_ [_ Hx]]]]].
    rewrite Hx in Ex. now injection Ex. }
  destruct (piped_frame w) as [E1 [E2 E3]].
  split; [exact H|]. unfold clocked. now rewrite E1, E2, E3.
Qed.

Lemma steady_detect key rec T B env r c w :
  steady key rec T B w -> wp (detect env r c) (fun _ => steady key rec T B) (fun _ => False) w.
Proof.
  apply (inv_detect (steady key rec T B) (fun _ => False)).
  - apply steady_arrive.
  - intros w0. apply steady_never_lost.
  - intros w0 k H. exact H.
  - intros w0 a H. exact H.
  - intros w0 line H. exact H.
  - intros w0. apply steady_never_lost.
  - intros w0 [Hs Hc]. split; [now apply smooth_flagged | exact Hc].
Qed.

Lemma steady_aggregate key rec T B env r w :
  0 < B <= Redis.max_int64 -> steady key rec T B w ->
  exists w', aggregate env r w = (Ok Next, w') /\ steady key rec T (B + 1) w'.
Proof.
  intros HB Hs.
  assert (H : wp (aggregate env r)
                 (fun resp w' => resp = Next /\ steady key rec T (B + 1) w')
                 (fun _ => False) w).
  { apply (inv_aggregate (steady key rec T B) (steady key rec T (B + 1)) (fun _ => False)).
    - apply steady_arrive.
    - apply steady_arrive.
    - intros w0 t _. apply steady_never_lost.
    - intros w0. apply steady_never_lost.
    - intros w0. now apply steady_piped.
    - intros w0 k H. exact H.
    - intros env0 r0 c w0. apply steady_detect.
    - exact Hs. }
  unfold wp in H. destruct (aggregate env r w) as [[resp|] w']; [|contradiction].
  destruct H as [-> H]. now exists w'.
Qed.

Lemma steady_count_blocked key rec T B r w :
  0 < B <= Redis.max_int64 -> steady key rec T B w ->
  exists w', incrementBlockedCounter r w = (Ok tt, w') /\ steady key rec T (B + 1) w'.
Proof.
  intros HB Hs.
  destruct (next_event w) as [d|] eqn:He; [|exact (steady_never_lost _ _ _ _ _ _ Hs He)].
  pose proof (steady_arrive _ _ _ _ _ _ Hs He) as [Hs1 Hc1].
  destruct Hs as [[_ [_ Hb]] _].
  rewrite (incrementBlockedCounter_tick r w d He (below_countable _ _ _ (proj2 HB) Hb)).
  eexists. split; [reflexivity|].
  pose proof (smooth_count_blocked B (arrive d w) HB Hs1) as H.
  unfold wp, execute in H. cbn [Redis.exec_all] in H.
  destruct Hs1 as [_ [_ Hb1]].
  rewrite (exec_INCR_countable _ _ (below_countable _ _ _ (proj2 HB) Hb1)) in H.
  cbn [map fst snd existsb Redis.is_error orb] in H.
  split; [exact H | exact Hc1].
Qed.

Lemma steady_limited key rec T B success w :
  smooth B w -> (clock w + budget (sched w) < T)%N ->
  steady key rec T B
    (say [Limited key success] (set_limiter (<[key := rec]> (limiter w)) w)).
Proof.
  intros Hs Hc. split; [exact Hs|]. split; [|exact Hc].
  simpl. now rewrite lookup_insert_eq.
Qed.

Lemma limited_first r key w :
  limiter w !! key = None ->
  limited (the_limiter r) key w =
    (true, say [Limited key true]
             (set_limiter (<[key := record 1 (clock w)]> (limiter w)) w)).
Proof. intros H. unfold limited. now rewrite H. Qed.

Lemma limited_within r key i t0 w :
  limiter w !! key = Some (record i t0) ->
  (clock w < t0 + INDIVIDUAL_RATE_LIMIT_window)%N ->
  limited (the_limiter r) key w =
    if i + 1 <=? INDIVIDUAL_RATE_LIMIT_requests
    then (true, say [Limited key true]
                  (set_limiter (<[key := record (i + 1) t0]> (limiter w)) w))
    else (false, say [Limited key false]
                   (set_limiter (<[key := record i t0]> (limiter w)) w)).
Proof.
  intros H Hc. unfold limited, admission. rewrite H.
  cbn [window_start record count the_limiter window requests].
  apply N.ltb_lt in Hc. rewrite Hc.
  cbn [window_start record count].
  now destruct (i + 1 <=? INDIVIDUAL_RATE_LIMIT_requests).
Qed.

Lemma first_request env r key q B w :
  redis env = Some r -> passes_checks key q ->
  0 < B <= Redis.max_int64 ->
  limiter w !! key = None ->
  smooth B w -> (budget (sched w) < INDIVIDUAL_RATE_LIMIT_window)%N ->
  exists w' t0,
    middleware env q w = (Ok Next, w') /\
    steady key (record 1 t0) (t0 + INDIVIDUAL_RATE_LIMIT_window) (B + 1) w'.
Proof.
  intros Hr [Hk [Hb Hu]] HB Hl Hs Hbud.
  rewrite (middleware_checked _ _ _ Hr Hb Hu). unfold checked_path. rewrite Hk.
  destruct (next_event w) as [d|] eqn:He; [|exact (smooth_never_lost _ _ _ Hs He)].
  unfold bind at 1. rewrite (limit_tick _ _ _ _ He).
  rewrite (limited_first r key (arrive d w)) by exact Hl.
  cbn [fst snd negb]. fold (aggregate env r).
  edestruct (steady_aggregate key (record 1 (clock (arrive d w)))
               (clock (arrive d w) + INDIVIDUAL_RATE_LIMIT_window) B env r) as [w' [Hw' Hst]];
    [exact HB| |exists w', (clock (arrive d w)); split; [exact Hw' | exact Hst]].
  apply steady_limited; [now apply smooth_arrive|].
  simpl. rewrite (budget_tick _ _ He) in Hbud. lia.
Qed.

Lemma next_request env r key q i t0 B w :
  redis env = Some r -> passes_checks key q ->
  0 < B <= Redis.max_int64 ->
  steady key (record i t0) (t0 + INDIVIDUAL_RATE_LIMIT_window) B w ->
  exists w',
    middleware env q w =
      (Ok (if i + 1 <=? INDIVIDUAL_RATE_LIMIT_requests then Next else rate_limited), w') /\
    steady key
      (record (if i + 1 <=? INDIVIDUAL_RATE_LIMIT_requests then i + 1 else i) t0)
      (t0 + INDIVIDUAL_RATE_LIMIT_window) (B + 1) w'.
Proof.
  intros Hr [Hk [Hb Hu]] HB Hst.
  rewrite (middleware_checked _ _ _ Hr Hb Hu). unfold checked_path. rewrite Hk.
  destruct (next_event w) as [d|] eqn:He; [|exact (steady_never_lost _ _ _ _ _ _ Hst He)].
  pose proof (steady_arrive _ _ _ _ _ _ Hst He) as [Hs1 [Hl1 Hc1]].
  unfold bind at 1. rewrite (limit_tick _ _ _ _ He).
  rewrite (limited_within r key i t0 (arrive d w) Hl1) by lia.
  destruct (i + 1 <=? INDIVIDUAL_RATE_LIMIT_requests); cbn [fst snd negb].
  - fold (aggregate env r). apply steady_aggregate; [exact HB|].
    now apply steady_limited.
  - edestruct (steady_count_blocked key (record i t0)
                 (t0 + INDIVIDUAL_RATE_LIMIT_window) B r) as [w' [Hw' Hst']];
      [exact HB | apply steady_limited; eassumption |].
    exists w'. unfold bind. rewrite Hw'. now split.
Qed.

Lemma steady_serve env r key t0 requests : forall i B w,
  redis env = Some r -> Forall (passes_checks key) requests ->
  1 <= i <= 10 -> Z.of_nat (length requests) = 11 - i ->
  0 < B -> B + (11 - i) <= Redis.max_int64 ->
  steady key (record i t0) (t0 + INDIVIDUAL_RATE_LIMIT_window) B w ->
  (serve_all env requests w).1 = replicate (Z.to_nat (10 - i)) (Ok Next) ++ [Ok rate_limited].
Proof.
  induction requests as [|q qs IH]; intros i B w Hr Hall Hi Hlen HB0 HB Hst.
  - simpl in Hlen. lia.
  - inversion Hall as [|? ? Hq Hqs]; subst.
    destruct (next_request env r key q i t0 B w Hr Hq ltac:(lia) Hst) as [w' [Hw' Hst']].
    change (length (q :: qs)) with (S (length qs)) in Hlen.
    rewrite Nat2Z.inj_succ in Hlen.
    simpl. rewrite Hw'. unfold INDIVIDUAL_RATE_LIMIT_requests in *.
    destruct (Z.leb_spec (i + 1) 10).
    + specialize (IH (i + 1) (B + 1) w' Hr Hqs ltac:(lia)).
      specialize (IH ltac:(lia) ltac:(lia) ltac:(lia) Hst').
      destruct (serve_all env qs w') as [os w2]. simpl in *. rewrite IH.
      replace (Z.to_nat (10 - i)) with (S (Z.to_nat (10 - (i + 1)))) by lia.
      reflexivity.
    + assert (i = 10) as -> by lia.
      destruct qs; [|simpl in Hlen; lia]. reflexivity.
Qed.

(** C7: one client key, requests that all pass the country and identity
    checks, no record of the key in the rate limiter yet, and the whole
    schedule shorter than the 10-second window (so that every request falls
    into the window that the first one opens): of eleven such requests the
    first ten are passed through and the eleventh is answered with 429. *)
Theorem eleventh_request_is_limited
  (env : ProcessEnv) (r : RedisClient) (key : string)
  (requests : list NextRequest) (w : World) :
  redis env = Some r ->
  length requests = 11%nat ->
  Forall (passes_checks key) requests ->
  limiter w !! key = None ->
  no_fail (sched w) ->
  (budget (sched w) < INDIVIDUAL_RATE_LIMIT_window)%N ->
  below (Redis.max_int64 - 11) (store w !! totalKey) ->
  below (Redis.max_int64 - 11) (store w !! blockedKey) ->
  (serve_all env requests w).1 = replicate 10 (Ok Next) ++ [Ok rate_limited].
Proof.
  intros Hr Hlen Hall Hl Hnf Hbud Ht Hb.
  destruct requests as [|q qs]; [discriminate|].
  inversion Hall as [|? ? Hq Hqs]; subst.
  assert (HB : 0 < Redis.max_int64 - 11 <= Redis.max_int64)
    by (unfold Redis.max_int64; lia).
  destruct (first_request env r key q _ w Hr Hq HB Hl (conj Hnf (conj Ht Hb)) Hbud)
    as [w' [t0 [Hw' Hst]]].
  simpl. rewrite Hw'.
  pose proof (steady_serve env r key t0 qs 1 (Redis.max_int64 - 11 + 1) w' Hr Hqs
                ltac:(lia)) as H.
  simpl in Hlen. injection Hlen as Hlen. rewrite Hlen in H.
  specialize (H eq_refl ltac:(lia) ltac:(lia) Hst).
  destruct (serve_all env qs w') as [os w2]. simpl in *. now rewrite H.
Qed.

Lemma eleventh_request_is_limited_witness :
  (serve_all env_on (replicate 11 (visit (Some "US") (Some chrome)))
     (fresh_world [Tick 500; Tick 20])).1
  = replicate 10 (Ok Next) ++ [Ok rate_limited].
Proof.
  apply (eleventh_request_is_limited env_on client_on "203.0.113.7").
  - reflexivity.
  - reflexivity.
  - repeat constructor.
  - reflexivity.
  - repeat constructor; discriminate.
  - reflexivity.
  - simpl. now rewrite lookup_empty.
  - simpl. now rewrite lookup_empty.
Defined.

(** ** The scenarios of the specification, run *)

Example scenario_blocked_country :
  (middleware env_on (visit (Some "RU") (Some chrome)) (fresh_world [])).1
  = Ok (Response "Access from country RU is denied." 403).
Proof. reflexivity. Qed.

Example scenario_script_client :
  (middleware env_on (visit None (Some "curl/8.0")) (fresh_world [])).1
  = Ok (Response "Your browser or bot is not allowed." 403).
Proof. reflexivity. Qed.

Example scenario_lower_case_is_another_string :
  (middleware env_on (visit (Some "US") (Some "chrome")) (fresh_world [])).1
  = Ok (Response "Your browser or bot is not allowed." 403).
Proof. reflexivity. Qed.

Example scenario_sixth_request :
  (serve_all env_on (replicate 6 (visit (Some "US") (Some chrome))) (fresh_world [])).1
  = replicate 6 (Ok Next).
Proof. vm_compute. reflexivity. Qed.

Example scenario_alert :
  let w' := (middleware env_on (visit (Some "US") (Some chrome)) (busy_world [])).2 in
  log w' =
    [Limited "203.0.113.7" true;
     Ran (Redis.INCR totalKey) (Redis.Integer 10001);
     Ran (Redis.EXPIRE_NX totalKey 60) (Redis.Integer 0);
     Ran (Redis.GET blockedKey) (Redis.Bulk (Redis.RInt 7));
     Ran (Redis.EXPIRE_NX blockedKey 60) (Redis.Integer 0);
     Ran (Redis.GET totalKey) (Redis.Bulk (Redis.RInt 10001));
     Ran (Redis.GET flagKey) Redis.Nil;
     Posted {| attackStrength := Js.Tenths false 1667;
               alertTotal := Js.Num 10001;
               alertBlocked := Js.Num 7;
               alertPassed := Js.Num 9994 |};
     Ran (Redis.SET_EX flagKey (Redis.RText "true") 60) Redis.OK] /\
  store w' !! flagKey = Some flag_set.
Proof. vm_compute. split; reflexivity. Qed.

(** Requests that are only ever denied leave a counter that outlives every
    window. *)
Example scenario_stale_blocked_count :
  let w1 := (serve_all env_on (replicate 3 (visit (Some "RU") None))
               (fresh_world [Tick 0; Tick 3600000; Tick 3600000])).2 in
  store w1 !! blockedKey = Some (Redis.Entry (Redis.RInt 3) None).
Proof. vm_compute. reflexivity. Qed.

(** * Further properties of the code *)

(** ** [sendTelegramMessage] *)

(** X1: [sendTelegramMessage] never throws.  Without both credentials it
    only writes the warning: no round trip is made and the store, the clock
    and the schedule stay as they are.  With them it makes exactly one round
    trip, which either delivers the message or is lost, and a lost one is
    caught and logged.  It never writes to the store. *)
Theorem sendTelegramMessage_never_throws (env : ProcessEnv) (text : Alert) (w : World) :
  exists w',
    sendTelegramMessage env text w = (Ok tt, w') /\
    limiter w' = limiter w /\
    if telegram_given env then
      match next_event w with
      | Tick d => w' = say [Posted text] (arrive d w)
      | Fail =>
          w' = say [Console "Failed to send Telegram message:"] (lost ToTelegram w) /\
          store w' = store w /\ clock w' = clock w
      end
    else
      w' = say [Console "Telegram credentials are not set. Cannot send notification."] w /\
      store w' = store w /\ clock w' = clock w /\ sched w' = sched w.
Proof.
  destruct (telegram_given env) eqn:Htg.
  - destruct (next_event w) as [d|] eqn:He.
    + rewrite (sendTelegramMessage_tick _ _ _ _ Htg He). eexists. now repeat split.
    + rewrite (sendTelegramMessage_fail _ _ _ Htg He). eexists. now repeat split.
  - rewrite (sendTelegramMessage_mute _ _ _ Htg). eexists. now repeat split.
Qed.

(** ** [getAttackCounters] and the window of the counters *)

Lemma armed_windowed n t :
  armed ATTACK_TIME_WINDOW_SECONDS (Some (Redis.Entry (Redis.RInt n) t))
  = Some (Redis.Entry (Redis.RInt n)
            (Some (default (1000 * ATTACK_TIME_WINDOW_SECONDS)%N t))).
Proof. now destruct t. Qed.

Lemma getAttackCounters_ticks r w d1 d2 :
  upcoming 2 (sched w) = [Tick d1; Tick d2] ->
  countable (store w) totalKey ->
  exists c,
    getAttackCounters r w =
      (Ok c,
       say [Ran (Redis.GET totalKey)
              (lookup_reply (store (arrive d2 (piped (arrive d1 w))) !! totalKey))]
         (arrive d2 (piped (arrive d1 w)))).
Proof.
  intros Hup Hc. apply upcoming2 in Hup as [H1 H2].
  pose proof (countable_elapse d1 _ _ Hc) as Hc1.
  rewrite (getAttackCounters_tick r w d1 H1 Hc1). unfold bind.
  rewrite (redis_get_tick r totalKey (piped (arrive d1 w)) d2)
    by (rewrite next_event_piped; exact H2).
  eexists. reflexivity.
Qed.

(** X2: the window of [attack:total] is never renewed.  When the two round
    trips of [getAttackCounters] go through, the key holds one more than it
    held when the pipeline arrived and keeps the expiry it had then; only a key
    that was absent (never counted, or expired) or had no expiry gets the full
    60 seconds, and an absent key restarts at 1.  What the store holds
    afterwards is that entry, aged by the second round trip. *)
Theorem total_window_is_not_renewed (r : RedisClient) (w : World) (d1 d2 : N) :
  upcoming 2 (sched w) = [Tick d1; Tick d2] ->
  countable (store w) totalKey ->
  exists c w',
    let before := Redis.elapse d1 (store w) !! totalKey in
    getAttackCounters r w = (Ok c, w') /\
    store w' !! totalKey = Redis.age d2 (windowed (count_of before + 1) before) /\
    (before = None ->
     store w' !! totalKey =
       Redis.age d2 (Redis.Entry (Redis.RInt 1) (Some 60000%N))) /\
    (forall n t, before = Some (Redis.Entry (Redis.RInt n) (Some t)) ->
     store w' !! totalKey =
       Redis.age d2 (Redis.Entry (Redis.RInt (n + 1)) (Some t))).
Proof.
  intros Hup Hc. destruct (getAttackCounters_ticks r w d1 d2 Hup Hc) as [c Hrun].
  rewrite Hrun. eexists _, _. cbv zeta. split; [reflexivity|].
  pose proof (countable_elapse d1 _ _ Hc) as Hc1.
  destruct (piped_countable (arrive d1 w) Hc1) as [a1 [a2 [_ [Htot _]]]].
  rewrite armed_windowed in Htot.
  assert (Hl : store (say [Ran (Redis.GET totalKey)
                  (lookup_reply (store (arrive d2 (piped (arrive d1 w))) !! totalKey))]
                  (arrive d2 (piped (arrive d1 w)))) !! totalKey
               = Redis.age d2 (windowed (count_of (Redis.elapse d1 (store w) !! totalKey) + 1)
                                 (Redis.elapse d1 (store w) !! totalKey))).
  { cbn [store say arrive pass set_sched]. rewrite lookup_elapse.
    change (Redis.elapse d1 (store w)) with (store (arrive d1 w)).
    rewrite Htot. reflexivity. }
  split; [exact Hl|]. split.
  - intros Hb. rewrite Hl, Hb. reflexivity.
  - intros n t Hb. rewrite Hl, Hb. reflexivity.
Qed.

Lemma total_window_is_not_renewed_witness :
  exists c w',
    let before := Redis.elapse 10000 (store (busy_world [Tick 10000; Tick 5])) !! totalKey in
    getAttackCounters client_on (busy_world [Tick 10000; Tick 5]) = (Ok c, w') /\
    store w' !! totalKey = Redis.age 5 (windowed (count_of before + 1) before) /\
    (before = None ->
     store w' !! totalKey =
       Redis.age 5 (Redis.Entry (Redis.RInt 1) (Some 60000%N))) /\
    (forall n t, before = Some (Redis.Entry (Redis.RInt n) (Some t)) ->
     store w' !! totalKey =
       Redis.age 5 (Redis.Entry (Redis.RInt (n + 1)) (Some t))).
Proof.
  apply (total_window_is_not_renewed client_on (busy_world [Tick 10000; Tick 5])
           10000%N 5%N).
  - reflexivity.
  - unfold countable, busy_world. simpl. rewrite lookup_insert_eq.
    exists 10000. split; [reflexivity | unfold Redis.max_int64; lia].
Defined.

(** X3: the allow path never counts at [attack:blocked].  When the two round
    trips of [getAttackCounters] go through, the key is absent afterwards if
    it was absent when the pipeline arrived ([EXPIRE] on a missing key does
    nothing), and otherwise keeps its value; its expiry is set, to 60 seconds,
    only if it had none. *)
Theorem blocked_is_only_armed (r : RedisClient) (w : World) (d1 d2 : N) :
  upcoming 2 (sched w) = [Tick d1; Tick d2] ->
  countable (store w) totalKey ->
  exists c w',
    let before := Redis.elapse d1 (store w) !! blockedKey in
    getAttackCounters r w = (Ok c, w') /\
    store w' !! blockedKey = armed ATTACK_TIME_WINDOW_SECONDS before ≫= Redis.age d2 /\
    (before = None -> store w' !! blockedKey = None) /\
    (forall v, before = Some (Redis.Entry v None) ->
     store w' !! blockedKey = Redis.age d2 (Redis.Entry v (Some 60000%N))) /\
    (forall v t, before = Some (Redis.Entry v (Some t)) ->
     store w' !! blockedKey = Redis.age d2 (Redis.Entry v (Some t))).
Proof.
  intros Hup Hc. destruct (getAttackCounters_ticks r w d1 d2 Hup Hc) as [c Hrun].
  rewrite Hrun. eexists _, _. cbv zeta. split; [reflexivity|].
  pose proof (countable_elapse d1 _ _ Hc) as Hc1.
  destruct (piped_countable (arrive d1 w) Hc1) as [a1 [a2 [_ [_ [Hblk _]]]]].
  assert (Hl : store (say [Ran (Redis.GET totalKey)
                  (lookup_reply (store (arrive d2 (piped (arrive d1 w))) !! totalKey))]
                  (arrive d2 (piped (arrive d1 w)))) !! blockedKey
               = armed ATTACK_TIME_WINDOW_SECONDS (Redis.elapse d1 (store w) !! blockedKey)
                 ≫= Redis.age d2).
  { cbn [store say arrive pass set_sched]. rewrite lookup_elapse.
    change (Redis.elapse d1 (store w)) with (store (arrive d1 w)).
    now rewrite Hblk. }
  split; [exact Hl|]. split; [|split].
  - intros Hb. rewrite Hl, Hb. reflexivity.
  - intros v Hb. rewrite Hl, Hb. reflexivity.
  - intros v t Hb. rewrite Hl, Hb. reflexivity.
Qed.

Lemma blocked_is_only_armed_witness :
  exists c w',
    let before := Redis.elapse 0 (store (fresh_world [])) !! blockedKey in
    getAttackCounters client_on (fresh_world []) = (Ok c, w') /\
    store w' !! blockedKey = armed ATTACK_TIME_WINDOW_SECONDS before ≫= Redis.age 0 /\
    (before = None -> store w' !! blockedKey = None) /\
    (forall v, before = Some (Redis.Entry v None) ->
     store w' !! blockedKey = Redis.age 0 (Redis.Entry v (Some 60000%N))) /\
    (forall v t, before = Some (Redis.Entry v (Some t)) ->
     store w' !! blockedKey = Redis.age 0 (Redis.Entry v (Some t))).
Proof.
  apply (blocked_is_only_armed client_on (fresh_world []) 0%N 0%N).
  - reflexivity.
  - unfold countable. simpl. now rewrite lookup_empty.
Defined.

(** ** The flag and the detector *)

Lemma detect_falsy env r c w d :
  Js.gt (totalRequests c) ATTACK_THRESHOLD = true ->
  next_event w = Tick d ->
  Js.truthy (Redis.decode (lookup_reply (store (arrive d w) !! flagKey))) = false ->
  detect env r c w =
    (sendTelegramMessage env (alert_of c) ;;
     redis_set r flagKey (Redis.RText "true") ATTACK_TIME_WINDOW_SECONDS ;;
     ret tt)
      (say [Ran (Redis.GET flagKey) (lookup_reply (store (arrive d w) !! flagKey))]
         (arrive d w)).
Proof.
  intros Hgt He Hf. unfold detect. rewrite Hgt. unfold bind at 1.
  rewrite (redis_get_tick _ _ _ _ He), Hf. reflexivity.
Qed.

(** X4: the flag mutes the detector for exactly the time it lives.  With the
    total above the threshold and the flag holding ["true"] with [t]
    milliseconds left, a detector run whose read of the flag arrives before [t]
    milliseconds have passed only reads it; one whose read arrives [t]
    milliseconds later, or more, finds the key expired, posts an alert (the
    credentials given, the round trips going through) and writes the flag
    again with 60 seconds. *)
Theorem flag_mutes_while_it_lives
  (env : ProcessEnv) (r : RedisClient) (c : Counters) (w : World) (t : N) :
  Js.gt (totalRequests c) ATTACK_THRESHOLD = true ->
  telegram_given env = true ->
  store w !! flagKey = Some (Redis.Entry (Redis.RText "true") (Some t)) ->
  (forall d,
     (d < t)%N -> next_event w = Tick d ->
     detect env r c w =
       (Ok tt, say [Ran (Redis.GET flagKey) (Redis.Bulk (Redis.RText "true"))] (arrive d w))) /\
  (forall d d2 d3,
     (t <= d)%N -> upcoming 3 (sched w) = [Tick d; Tick d2; Tick d3] ->
     exists w',
       detect env r c w = (Ok tt, w') /\
       log w' = log w ++
         [Ran (Redis.GET flagKey) Redis.Nil;
          Posted (alert_of c);
          Ran (Redis.SET_EX flagKey (Redis.RText "true") 60) Redis.OK] /\
       store w' !! flagKey = Some flag_set).
Proof.
  intros Hgt Htg Hf. split.
  - intros d Hd He.
    assert (Hl : store (arrive d w) !! flagKey
                 = Some (Redis.Entry (Redis.RText "true") (Some (t - d)%N))).
    { simpl. rewrite lookup_elapse, Hf. simpl. unfold Redis.age. simpl.
      destruct (N.leb_spec t d); [lia | reflexivity]. }
    now rewrite (detect_flagged env r c w d _ Hgt He Hl).
  - intros d d2 d3 Hd Hup. apply upcoming3 in Hup as [H1 [H2 H3]].
    assert (Hl : store (arrive d w) !! flagKey = None).
    { simpl. rewrite lookup_elapse, Hf. simpl. unfold Redis.age. simpl.
      destruct (N.leb_spec t d); [reflexivity | lia]. }
    rewrite (detect_unflagged env r c w d Hgt H1 Hl).
    unfold bind at 1. rewrite (sendTelegramMessage_tick env _ _ d2 Htg) by exact H2.
    unfold bind at 1. rewrite (redis_set_tick r _ _ _ _ d3) by exact H3.
    eexists. split; [reflexivity|]. split.
    + simpl. now rewrite <- !app_assoc.
    + simpl. now rewrite lookup_insert_eq.
Qed.

Lemma flag_mutes_while_it_lives_witness :
  detect env_on client_on counters_10001 (alerted_world [Tick 49999])
  = (Ok tt, say [Ran (Redis.GET flagKey) (Redis.Bulk (Redis.RText "true"))]
              (arrive 49999 (alerted_world [Tick 49999]))).
Proof.
  apply (proj1 (flag_mutes_while_it_lives env_on client_on counters_10001
                  (alerted_world [Tick 49999]) 50000%N eq_refl eq_refl eq_refl)).
  - reflexivity.
  - reflexivity.
Defined.

(** X5: when the write of the flag fails after the alert was delivered, the
    detector throws: the alert is out, the flag is not set, and so the next run
    above the threshold will alert again. *)
Theorem alert_delivered_but_flag_lost
  (env : ProcessEnv) (r : RedisClient) (c : Counters) (w : World) (d1 d2 : N) :
  Js.gt (totalRequests c) ATTACK_THRESHOLD = true ->
  telegram_given env = true ->
  upcoming 3 (sched w) = [Tick d1; Tick d2; Fail] ->
  Redis.elapse d1 (store w) !! flagKey = None ->
  exists w',
    detect env r c w = (Threw, w') /\
    log w' = log w ++
      [Ran (Redis.GET flagKey) Redis.Nil; Posted (alert_of c); Lost ToStore] /\
    store w' !! flagKey = None.
Proof.
  intros Hgt Htg Hup Hflag. apply upcoming3 in Hup as [H1 [H2 H3]].
  rewrite (detect_unflagged env r c w d1 Hgt H1 Hflag).
  unfold bind at 1. rewrite (sendTelegramMessage_tick env _ _ d2 Htg) by exact H2.
  unfold bind at 1. rewrite redis_set_fail by exact H3.
  eexists. split; [reflexivity|]. split.
  - simpl. now rewrite <- !app_assoc.
  - simpl. rewrite lookup_elapse.
    change (Redis.elapse d1 (store w) !! flagKey) with (store (arrive d1 w) !! flagKey) in Hflag.
    simpl in Hflag. now rewrite Hflag.
Qed.

Lemma alert_delivered_but_flag_lost_witness :
  exists w',
    detect env_on client_on counters_10001 (fresh_world [Tick 1; Tick 2; Fail]) = (Threw, w') /\
    log w' = log (fresh_world [Tick 1; Tick 2; Fail]) ++
      [Ran (Redis.GET flagKey) Redis.Nil; Posted (alert_of counters_10001); Lost ToStore] /\
    store w' !! flagKey = None.
Proof.
  apply (alert_delivered_but_flag_lost env_on client_on counters_10001
           (fresh_world [Tick 1; Tick 2; Fail]) 1%N 2%N).
  - reflexivity.
  - reflexivity.
  - reflexivity.
  - unfold Redis.elapse. simpl. now rewrite omap_empty, lookup_empty.
Defined.

(** ** Failures after the request was counted *)

(** X6: [getAttackCounters] counts the request before it can fail on its
    second read.  When the pipeline goes through and the read of
    [attack:total] is lost, the function throws, and [attack:total] has been
    incremented all the same. *)
Theorem counted_although_the_read_fails (r : RedisClient) (w : World) (d1 : N) :
  upcoming 2 (sched w) = [Tick d1; Fail] ->
  countable (store w) totalKey ->
  exists w',
    let before := Redis.elapse d1 (store w) !! totalKey in
    getAttackCounters r w = (Threw, w') /\
    store w' !! totalKey = Some (windowed (count_of before + 1) before) /\
    exists a1 a2,
      log w' = log w ++
        [Ran (Redis.INCR totalKey) (Redis.Integer (count_of before + 1));
         Ran (Redis.EXPIRE_NX totalKey 60) (Redis.Integer a1);
         Ran (Redis.GET blockedKey) (lookup_reply (Redis.elapse d1 (store w) !! blockedKey));
         Ran (Redis.EXPIRE_NX blockedKey 60) (Redis.Integer a2);
         Lost ToStore].
Proof.
  intros Hup Hc. apply upcoming2 in Hup as [H1 H2].
  pose proof (countable_elapse d1 _ _ Hc) as Hc1.
  rewrite (getAttackCounters_tick r w d1 H1 Hc1). unfold bind.
  rewrite (redis_get_fail r totalKey (piped (arrive d1 w)))
    by (rewrite next_event_piped; exact H2).
  destruct (piped_countable (arrive d1 w) Hc1) as [a1 [a2 [Hlog [Htot _]]]].
  rewrite armed_windowed in Htot.
  eexists. cbv zeta. split; [reflexivity|]. split.
  - cbn [store lost say set_sched]. exact Htot.
  - exists a1, a2. cbn [log lost say set_sched]. rewrite Hlog.
    now rewrite <- app_assoc.
Qed.

Lemma counted_although_the_read_fails_witness :
  exists w',
    let before := Redis.elapse 3 (store (fresh_world [Tick 3; Fail])) !! totalKey in
    getAttackCounters client_on (fresh_world [Tick 3; Fail]) = (Threw, w') /\
    store w' !! totalKey = Some (windowed (count_of before + 1) before) /\
    exists a1 a2,
      log w' = log (fresh_world [Tick 3; Fail]) ++
        [Ran (Redis.INCR totalKey) (Redis.Integer (count_of before + 1));
         Ran (Redis.EXPIRE_NX totalKey 60) (Redis.Integer a1);
         Ran (Redis.GET blockedKey)
           (lookup_reply (Redis.elapse 3 (store (fresh_world [Tick 3; Fail])) !! blockedKey));
         Ran (Redis.EXPIRE_NX blockedKey 60) (Redis.Integer a2);
         Lost ToStore].
Proof.
  apply (counted_although_the_read_fails client_on (fresh_world [Tick 3; Fail]) 3%N).
  - reflexivity.
  - unfold countable. simpl. now rewrite lookup_empty.
Defined.

Lemma incrementBlockedCounter_error r w d :
  next_event w = Tick d ->
  ~ countable (store (arrive d w)) blockedKey ->
  incrementBlockedCounter r w =
    (Threw, say [Ran (Redis.INCR blockedKey) Redis.Error] (arrive d w)).
Proof.
  intros He Hc. unfold incrementBlockedCounter, redis_incr, send, bind.
  rewrite (roundtrip_tick _ _ _ _ He). unfold execute. cbn [Redis.exec_all].
  rewrite (exec_INCR_uncountable _ _ Hc). cbn [map fst snd existsb Redis.is_error orb].
  now rewrite set_store_same.
Qed.

(** X7: a denial is answered only if the blocked counter could count it.
    When [attack:blocked] holds something [INCR] rejects (a text that is no
    integer, or the largest 64-bit integer), a request that the country or the
    identity check denies gets no 403: the middleware throws, and the store
    holds what it held, aged by the one round trip. *)
Theorem denial_needs_the_counter
  (env : ProcessEnv) (r : RedisClient) (request : NextRequest) (w : World) (d : N) :
  redis env = Some r ->
  country_blocked (origin request) = true \/
  some_includes ALLOWED_USER_AGENTS (identity request) = false ->
  next_event w = Tick d ->
  ~ countable (Redis.elapse d (store w)) blockedKey ->
  middleware env request w =
    (Threw, say [Ran (Redis.INCR blockedKey) Redis.Error] (arrive d w)).
Proof.
  intros Hr Hchk He Hc.
  destruct (country_blocked (origin request)) eqn:Hb.
  - destruct (origin request) as [c|] eqn:Ho; [|discriminate].
    rewrite (middleware_country _ _ _ _ Hr Ho Hb). unfold bind.
    now rewrite (incrementBlockedCounter_error _ _ _ He Hc).
  - destruct Hchk as [Hchk|Hu]; [discriminate|].
    rewrite (middleware_identity _ _ _ Hr Hb Hu). unfold bind.
    now rewrite (incrementBlockedCounter_error _ _ _ He Hc).
Qed.

Lemma denial_needs_the_counter_witness :
  middleware env_on (visit (Some "RU") (Some chrome)) (corrupt_world [Tick 7])
  = (Threw, say [Ran (Redis.INCR blockedKey) Redis.Error]
              (arrive 7 (corrupt_world [Tick 7]))).
Proof.
  apply (denial_needs_the_counter env_on client_on).
  - reflexivity.
  - left. reflexivity.
  - reflexivity.
  - unfold countable, corrupt_world. simpl. rewrite lookup_elapse, lookup_insert_eq.
    simpl. intros [n [H _]]. discriminate H.
Defined.

(** ** Keys that always expire *)

Lemma execute_world cs w :
  (execute cs w).2 =
    say (map (fun cr => Ran (fst cr) (snd cr)) (Redis.exec_all cs (store w)).1)
      (set_store (Redis.exec_all cs (store w)).2 w).
Proof.
  unfold execute. destruct (Redis.exec_all cs (store w)) as [rs s'].
  now destruct (existsb _ rs).
Qed.

Lemma execute_store cs w :
  store (execute cs w).2 = (Redis.exec_all cs (store w)).2.
Proof. rewrite execute_world. now destruct (Redis.exec_all cs (store w)). Qed.

Lemma execute_pipeline_world w : (execute pipeline w).2 = piped w.
Proof.
  rewrite execute_world. unfold piped.
  now destruct (Redis.exec_all pipeline (store w)) as [rs s'].
Qed.

Lemma piped_lookup_total w :
  store (piped w) !! totalKey =
    armed ATTACK_TIME_WINDOW_SECONDS
      ((Redis.exec (Redis.INCR totalKey) (store w)).2 !! totalKey).
Proof.
  unfold piped, pipeline. cbn [Redis.exec_all].
  destruct (Redis.exec (Redis.INCR totalKey) (store w)) as [r1 s1].
  pose proof (exec_EXPIRE_NX_lookup s1 totalKey ATTACK_TIME_WINDOW_SECONDS ltac:(discriminate)) as Hl.
  destruct (Redis.exec (Redis.EXPIRE_NX totalKey ATTACK_TIME_WINDOW_SECONDS) s1) as [r2 s2].
  rewrite exec_GET.
  pose proof (exec_other (Redis.EXPIRE_NX blockedKey ATTACK_TIME_WINDOW_SECONDS) s2 totalKey
                ltac:(discriminate)) as Ho.
  destruct (Redis.exec (Redis.EXPIRE_NX blockedKey ATTACK_TIME_WINDOW_SECONDS) s2) as [r4 s4].
  simpl in *. now rewrite Ho, Hl.
Qed.

Lemma piped_lookup_flag w : store (piped w) !! flagKey = store w !! flagKey.
Proof.
  pose proof (exec_all_other pipeline (store w) flagKey
                ltac:(repeat constructor; discriminate)) as H.
  unfold piped. now destruct (Redis.exec_all pipeline (store w)) as [rs s'].
Qed.

Lemma expiring_age d o : expiring o -> expiring (o ≫= Redis.age d).
Proof.
  destruct o as [e|]; simpl; [|trivial]. intros [t [Ht Hle]].
  unfold Redis.age. rewrite Ht. destruct (t <=? d)%N; simpl; [trivial|].
  eexists. split; [reflexivity | lia].
Qed.

Lemma flag_sane_age d o : flag_sane o -> flag_sane (o ≫= Redis.age d).
Proof.
  destruct o as [e|]; simpl; [|trivial]. intros [Hv He].
  pose proof (expiring_age d (Some e) He) as H. simpl in H.
  destruct (Redis.age d e) as [e'|] eqn:Ea; simpl; [|trivial].
  split; [|exact H]. now rewrite (age_value _ _ _ Ea).
Qed.

Lemma expiring_incr_armed s :
  expiring (s !! totalKey) ->
  expiring (armed ATTACK_TIME_WINDOW_SECONDS
              ((Redis.exec (Redis.INCR totalKey) s).2 !! totalKey)).
Proof.
  intros H. simpl. destruct (s !! totalKey) as [[[n|x] t]|] eqn:El; simpl.
  - destruct (n <? Redis.max_int64); simpl.
    + rewrite lookup_insert_eq. destruct H as [t' [Ht Hle]]. simpl in Ht. subst t.
      simpl. eauto.
    + rewrite El. destruct H as [t' [Ht Hle]]. simpl in Ht. subst t. simpl. eauto.
  - rewrite El. destruct H as [t' [Ht Hle]]. simpl in Ht. subst t. simpl. eauto.
  - rewrite lookup_insert_eq. simpl. eexists. split; [reflexivity|]. unfold window_ms. lia.
Qed.

Lemma on_the_clock_elapse d s : on_the_clock s -> on_the_clock (Redis.elapse d s).
Proof.
  intros [H1 H2]. split; rewrite lookup_elapse.
  - now apply expiring_age.
  - now apply flag_sane_age.
Qed.

Lemma on_the_clock_middleware env request w :
  on_the_clock (store w) -> on_the_clock (store (middleware env request w).2).
Proof.
  intros Hs.
  set (J := fun w0 : World => on_the_clock (store w0)).
  assert (Harrive : forall w0 d, J w0 -> next_event w0 = Tick d -> J (arrive d w0)).
  { intros w0 d H _. now apply on_the_clock_elapse. }
  assert (H : wp (middleware env request) (fun _ => J) J w).
  { apply (inv_middleware J J J); auto.
    - intros w0 [H1 H2]. unfold wp.
      pose proof (execute_store [Redis.INCR blockedKey] w0) as Hw.
      destruct (execute [Redis.INCR blockedKey] w0) as [[vs|] w1];
        cbn [snd] in Hw; unfold J, on_the_clock; rewrite Hw;
        (split; rewrite exec_all_other by (repeat constructor; discriminate); assumption).
    - intros w0 [H1 H2]. unfold wp.
      pose proof (execute_pipeline_world w0) as Hw.
      destruct (execute pipeline w0) as [[vs|] w1]; simpl in Hw; subst w1;
        (split; [rewrite piped_lookup_total; now apply expiring_incr_armed
                | now rewrite piped_lookup_flag]).
    - apply (inv_detect J J); auto.
      intros w0 [H1 H2]. split; cbn [store flagged say set_store].
      + now rewrite lookup_insert_ne by discriminate.
      + rewrite lookup_insert_eq. split; [reflexivity|].
        eexists. split; [reflexivity|]. unfold window_ms. lia.
    - intros rl key w0 H0. unfold wp, decide_limit.
      now destruct (admission _ _ _ _). }
  unfold wp in H. now destruct (middleware env request w) as [[resp|] w'].
Qed.

(** X8: [attack:total] and the flag never lose their expiry.  From a store
    in which [attack:total] is absent or expires within 60 seconds and the flag
    is absent or holds ["true"] and expires within 60 seconds, any requests,
    served one after the other with whatever failures, leave such a store. *)
Theorem total_and_flag_always_expire
  (env : ProcessEnv) (requests : list NextRequest) (w : World) :
  on_the_clock (store w) -> on_the_clock (store (serve_all env requests w).2).
Proof.
  revert w. induction requests as [|q qs IH]; intros w Hs; [exact Hs|].
  simpl. pose proof (on_the_clock_middleware env q w Hs) as H1.
  destruct (middleware env q w) as [o w1]. simpl in H1.
  specialize (IH w1 H1). now destruct (serve_all env qs w1) as [os w2].
Qed.

Lemma total_and_flag_always_expire_witness :
  on_the_clock
    (store (serve_all env_on
              [visit (Some "US") (Some chrome); visit (Some "RU") None]
              (busy_world [Tick 5; Fail])).2).
Proof.
  apply total_and_flag_always_expire.
  unfold on_the_clock, busy_world. simpl. split.
  - rewrite lookup_insert_eq. simpl. eexists. split; [reflexivity|]. now vm_compute.
  - rewrite lookup_insert_ne by discriminate. rewrite lookup_insert_ne by discriminate.
    now rewrite lookup_empty.
Defined.

(** ** What [attack:total] counts *)

Lemma tallied_frame n w w' :
  store w' = store w -> sched w' = sched w -> tallied n w -> tallied n w'.
Proof. unfold tallied. now intros -> ->. Qed.

Lemma tallied_arrive n w d :
  tallied n w -> next_event w = Tick d -> tallied n (arrive d w).
Proof.
  unfold tallied. intros H He. pose proof (budget_tick _ _ He) as Hb.
  cbn [arrive pass set_sched store sched]. rewrite lookup_elapse.
  destruct (n =? 0).
  - destruct H as [-> Hlt]. split; [reflexivity|]. clear - Hb Hlt. lia.
  - destruct H as [t [-> [Hlt Hle]]]. cbn [mbind option_bind]. unfold Redis.age.
    cbn [Redis.ttl Redis.value].
    destruct (N.leb_spec t d) as [Hd|Hd]; [clear - Hb Hlt Hd; lia|].
    exists (t - d)%N. split; [reflexivity|]. clear - Hb Hlt Hle Hd. lia.
Qed.

Lemma tallied_lost_telegram n w :
  tallied n w -> next_event w = Fail -> tallied n (lost ToTelegram w).
Proof.
  unfold tallied. intros H He. pose proof (budget_fail _ He) as Hb.
  cbn [lost say set_sched store sched]. now rewrite Hb.
Qed.

Lemma tallied_flagged n w : tallied n w -> tallied n (flagged w).
Proof.
  unfold tallied. cbn [flagged say set_store store sched].
  now rewrite lookup_insert_ne by discriminate.
Qed.

Lemma tallied_detect n env r c w :
  tallied n w -> wp (detect env r c) (fun _ => tallied n) (fun _ => True) w.
Proof.
  apply (inv_detect (tallied n) (fun _ => True)); auto.
  - intros w0 d. apply tallied_arrive.
  - intros w0. apply tallied_lost_telegram.
  - intros w0. apply tallied_flagged.
Qed.

Lemma tallied_pipeline n w :
  0 <= n -> tallied n w ->
  wp (execute pipeline) (fun _ => tallied (n + 1)) (fun _ => True) w.
Proof.
  intros Hn H. unfold wp.
  destruct (countable_dec (store w) totalKey) as [Hc|Hc].
  2:{ now rewrite (piped_uncountable _ Hc). }
  destruct (piped_countable _ Hc) as (a1 & a2 & _ & Ht & _ & ->).
  unfold tallied in *. rewrite sched_piped, Ht.
  destruct (Z.eqb_spec (n + 1) 0) as [E|_]; [clear - Hn E; lia|].
  destruct (Z.eqb_spec n 0) as [->|_].
  - destruct H as [-> Hlt]. cbn [count_of mbind option_bind armed].
    exists window_ms. split; [reflexivity|]. split; [exact Hlt | reflexivity].
  - destruct H as [t [-> [Hlt Hle]]]. cbn [count_of mbind option_bind armed Redis.ttl].
    exists t. now split.
Qed.

Lemma tallied_step env r q n w w' :
  redis env = Some r -> 0 <= n -> tallied n w ->
  middleware env q w = (Ok Next, w') -> tallied (n + 1) w'.
Proof.
  intros Hr Hn Ht H.
  destruct (country_blocked (origin q)) eqn:Hb.
  { destruct (origin q) as [c|] eqn:Hc; [|discriminate].
    rewrite (middleware_country _ _ _ _ Hr Hc Hb) in H.
    apply then_ret_Ok in H as [H _]. discriminate. }
  destruct (some_includes ALLOWED_USER_AGENTS (identity q)) eqn:Hu.
  2:{ rewrite (middleware_identity _ _ _ Hr Hb Hu) in H.
      apply then_ret_Ok in H as [H _]. discriminate. }
  rewrite (middleware_checked _ _ _ Hr Hb Hu) in H. unfold checked_path in H.
  apply bind_Ok in H as (success & w1 & Hl & H).
  destruct (next_event w) as [d|] eqn:He.
  2:{ rewrite (limit_fail _ _ _ He) in Hl. discriminate. }
  rewrite (limit_tick _ _ _ _ He) in Hl. injection Hl as <- <-.
  destruct (limited_facts (the_limiter r) (client_key q) (arrive d w)) as (_ & Hs & Hsc & _).
  destruct (limited (the_limiter r) (client_key q) (arrive d w)).1; cbn [negb] in H.
  2:{ apply then_ret_Ok in H as [H _]. discriminate. }
  fold (aggregate env r) in H.
  assert (Ht1 : tallied n (limited (the_limiter r) (client_key q) (arrive d w)).2).
  { apply (tallied_frame n (arrive d w)); [exact Hs | exact Hsc |].
    now apply tallied_arrive. }
  assert (Hwp : wp (aggregate env r) (fun resp w2 => resp = Next /\ tallied (n + 1) w2)
                  (fun _ => True)
                  (limited (the_limiter r) (client_key q) (arrive d w)).2).
  { apply (inv_aggregate (tallied n) (tallied (n + 1)) (fun _ => True)); auto.
    - intros w0 d0. apply tallied_arrive.
    - intros w0 d0. apply tallied_arrive.
    - intros w0. now apply tallied_pipeline.
    - intros env0 r0 c w0. apply tallied_detect. }
  unfold wp in Hwp. rewrite H in Hwp. now destruct Hwp.
Qed.

Lemma tallied_serve_all env r requests n w :
  redis env = Some r -> 0 <= n -> tallied n w ->
  Forall (fun o => o = Ok Next) (serve_all env requests w).1 ->
  tallied (n + Z.of_nat (length requests)) (serve_all env requests w).2.
Proof.
  intros Hr. revert n w. induction requests as [|q qs IH]; intros n w Hn Ht Hall.
  - simpl. now rewrite Z.add_0_r.
  - cbn [serve_all] in *. destruct (middleware env q w) as [o w1] eqn:Hm.
    specialize (IH (n + 1) w1).
    destruct (serve_all env qs w1) as [os w2]. cbn [fst snd] in *.
    inversion Hall as [|? ? Ho Hos]; subst.
    change (length (q :: qs)) with (S (length qs)). rewrite Nat2Z.inj_succ.
    replace (n + Z.succ (Z.of_nat (length qs))) with (n + 1 + Z.of_nat (length qs))
      by (clear; lia).
    apply IH; [clear - Hn; lia | | exact Hos].
    now apply (tallied_step env r q n w w1).
Qed.

(** X9: [attack:total] counts the requests that pass.  With the store
    configured, start where [attack:total] is absent and all the coming round
    trips together take less than the 60-second window.  If every request of a
    non-empty run is let through, [attack:total] then holds the number of
    requests, with a time to live of at most 60 seconds. *)
Theorem total_counts_the_passes
  (env : ProcessEnv) (r : RedisClient) (requests : list NextRequest) (w : World) :
  redis env = Some r ->
  store w !! totalKey = None ->
  (budget (sched w) < window_ms)%N ->
  Forall (fun o => o = Ok Next) (serve_all env requests w).1 ->
  requests <> [] ->
  exists t,
    store (serve_all env requests w).2 !! totalKey =
      Some (Redis.Entry (Redis.RInt (Z.of_nat (length requests))) (Some t)) /\
    (0 < t <= window_ms)%N.
Proof.
  intros Hr Hs Hb Hall Hne.
  pose proof (tallied_serve_all env r requests 0 w Hr ltac:(reflexivity)) as H.
  specialize (H ltac:(unfold tallied; now cbn [Z.eqb]) Hall).
  rewrite Z.add_0_l in H. unfold tallied in H.
  destruct (Z.eqb_spec (Z.of_nat (length requests)) 0) as [E|_].
  { destruct requests; [now destruct Hne | discriminate]. }
  destruct H as [t [Ht [Hlt Hle]]]. exists t. split; [exact Ht|].
  clear - Hlt Hle. lia.
Qed.

Lemma total_counts_the_passes_witness :
  exists t,
    store (serve_all env_on
             [visit (Some "US") (Some chrome); visit (Some "DE") (Some chrome);
              visit None (Some chrome)]
             (fresh_world [Tick 10; Tick 20; Tick 30])).2 !! totalKey =
      Some (Redis.Entry (Redis.RInt (Z.of_nat 3)) (Some t)) /\
    (0 < t <= window_ms)%N.
Proof.
  apply (total_counts_the_passes env_on client_on
           [visit (Some "US") (Some chrome); visit (Some "DE") (Some chrome);
            visit None (Some chrome)]
           (fresh_world [Tick 10; Tick 20; Tick 30])).
  - reflexivity.
  - reflexivity.
  - now vm_compute.
  - vm_compute. repeat constructor.
  - discriminate.
Defined.

(** ** The footprint of a request *)

Lemma alerts_app tr1 tr2 : alerts (tr1 ++ tr2) = alerts tr1 ++ alerts tr2.
Proof. unfold alerts. apply flat_map_app. Qed.

Lemma footprint_refl G w : footprint 0 G w w.
Proof.
  exists []. split; [now rewrite app_nil_r|]. split; [constructor | simpl; lia].
Qed.

Lemma footprint_trans p1 p2 G w w1 w2 :
  footprint p1 G w w1 -> footprint p2 G w1 w2 -> footprint (p1 + p2) G w w2.
Proof.
  intros [tr1 [Hl1 [HG1 Hp1]]] [tr2 [Hl2 [HG2 Hp2]]].
  exists (tr1 ++ tr2). split; [now rewrite Hl2, Hl1, app_assoc|].
  split; [now apply Forall_app|]. rewrite alerts_app, length_app. lia.
Qed.

Lemma footprint_mono p p' G w w' :
  (p <= p')%nat -> footprint p G w w' -> footprint p' G w w'.
Proof.
  intros Hp [tr [Hl [HG Hn]]].
  exists tr. split; [exact Hl|]. split; [exact HG | lia].
Qed.

Lemma footprint_said G w es :
  Forall G es -> alerts es = [] -> footprint 0 G w (say es w).
Proof.
  intros HG Ha. exists es. split; [reflexivity|]. split; [exact HG | now rewrite Ha].
Qed.

Lemma footprint_arrive G w d : footprint 0 G w (arrive d w).
Proof.
  exists []. split; [now rewrite app_nil_r|]. split; [constructor | simpl; lia].
Qed.

Lemma footprint_lost G t w : G (Lost t) -> footprint 0 G w (lost t w).
Proof.
  intros HG. exists [Lost t]. split; [reflexivity|].
  split; [constructor; [exact HG | constructor] | simpl; lia].
Qed.

Lemma leaves_mono {A} p p' G (m : M A) :
  (p <= p')%nat -> leaves p G m -> leaves p' G m.
Proof. intros Hp H w. exact (footprint_mono _ _ _ _ _ Hp (H w)). Qed.

Lemma leaves_ret {A} G (a : A) : leaves 0 G (ret a).
Proof. intros w. apply footprint_refl. Qed.

Lemma leaves_bind {A B} p1 p2 G (m : M A) (f : A -> M B) :
  leaves p1 G m -> (forall a, leaves p2 G (f a)) -> leaves (p1 + p2) G (bind m f).
Proof.
  intros Hm Hf w. unfold bind. specialize (Hm w).
  destruct (m w) as [[a|] w1]; cbn [snd] in *.
  - exact (footprint_trans _ _ _ _ _ _ Hm (Hf a w1)).
  - eapply footprint_mono; [|exact Hm]. lia.
Qed.

Lemma leaves_catch {A} p1 p2 G (m h : M A) :
  leaves p1 G m -> leaves p2 G h -> leaves (p1 + p2) G (catch m h).
Proof.
  intros Hm Hh w. unfold catch. specialize (Hm w).
  destruct (m w) as [[a|] w1]; cbn [snd] in *.
  - eapply footprint_mono; [|exact Hm]. lia.
  - exact (footprint_trans _ _ _ _ _ _ Hm (Hh w1)).
Qed.

Lemma leaves_roundtrip {A} p G t (serve : M A) :
  G (Lost t) -> leaves p G serve -> leaves p G (roundtrip t serve).
Proof.
  intros HG Hs w. unfold roundtrip. destruct (next_event w) as [d|].
  - exact (footprint_trans 0 p _ _ _ _ (footprint_arrive G w d) (Hs (arrive d w))).
  - cbn [snd]. eapply footprint_mono; [|exact (footprint_lost G t w HG)]. lia.
Qed.

Lemma leaves_console G line : G (Console line) -> leaves 0 G (console line).
Proof.
  intros HG w. apply footprint_said; [constructor; [exact HG | constructor] | reflexivity].
Qed.

Lemma exec_all_commands cs s : map fst (Redis.exec_all cs s).1 = cs.
Proof.
  revert s. induction cs as [|c cs IH]; intros s; [reflexivity|].
  simpl. destruct (Redis.exec c s) as [r s1]. specialize (IH s1).
  destruct (Redis.exec_all cs s1) as [rs s2]. simpl in *. now rewrite IH.
Qed.

Lemma alerts_ran (rs : list (Redis.cmd * Redis.reply)) :
  alerts (map (fun cr => Ran (fst cr) (snd cr)) rs) = [].
Proof. induction rs as [|cr rs IH]; [reflexivity | exact IH]. Qed.

Lemma leaves_execute G cs :
  (forall c r, In c cs -> G (Ran c r)) -> leaves 0 G (execute cs).
Proof.
  intros HG w. rewrite execute_world.
  pose proof (exec_all_commands cs (store w)) as Hc.
  set (rs := (Redis.exec_all cs (store w)).1) in *.
  eexists. split; [reflexivity|]. split; [|now rewrite alerts_ran].
  apply List.Forall_forall. intros e He. apply in_map_iff in He as [[c r] [<- Hin]].
  apply HG. rewrite <- Hc. change c with (fst (c, r)). now apply in_map.
Qed.

Lemma leaves_send G cs :
  G (Lost ToStore) -> (forall c r, In c cs -> G (Ran c r)) -> leaves 0 G (send cs).
Proof. intros HL HG. apply leaves_roundtrip; [exact HL | now apply leaves_execute]. Qed.

Lemma leaves_own_send {A} cs (f : list Js.value -> A) :
  Forall own_command cs -> leaves 0 own_entry (let* vs := send cs in ret (f vs)).
Proof.
  intros H. apply (leaves_bind 0 0).
  - apply leaves_send; [exact Logic.I|]. intros c r Hin.
    exact (proj1 (List.Forall_forall _ _) H c Hin).
  - intros vs. apply leaves_ret.
Qed.

Lemma leaves_incrementBlockedCounter r :
  leaves 0 own_entry (incrementBlockedCounter r).
Proof.
  unfold incrementBlockedCounter. apply (leaves_bind 0 0); [|intros; apply leaves_ret].
  unfold redis_incr. apply leaves_own_send.
  constructor; [|constructor]. unfold own_command. simpl. auto 12.
Qed.

Lemma leaves_redis_get r k :
  In k [totalKey; blockedKey; flagKey] -> leaves 0 own_entry (redis_get r k).
Proof.
  intros Hk. unfold redis_get. apply leaves_own_send. constructor; [|constructor].
  simpl in Hk. destruct Hk as [<-|[<-|[<-|[]]]]; unfold own_command; simpl; auto 12.
Qed.

Lemma leaves_getAttackCounters r : leaves 0 own_entry (getAttackCounters r).
Proof.
  unfold getAttackCounters. apply (leaves_bind 0 0).
  - apply leaves_send; [exact Logic.I|]. intros c rp Hin. simpl in Hin.
    destruct Hin as [<-|[<-|[<-|[<-|[]]]]]; unfold own_entry, own_command; simpl; auto 12.
  - intros replies. apply (leaves_bind 0 0).
    + apply leaves_redis_get. simpl. tauto.
    + intros got. apply leaves_ret.
Qed.

Lemma leaves_sendTelegramMessage env a :
  well_founded_alert a -> leaves 1 own_entry (sendTelegramMessage env a).
Proof.
  intros Ha. unfold sendTelegramMessage.
  destruct (negb (given (TELEGRAM_BOT_TOKEN env)) || negb (given (TELEGRAM_CHAT_ID env))).
  - eapply leaves_mono; [|apply leaves_console; exact Logic.I]. lia.
  - apply (leaves_catch 1 0); [|apply leaves_console; exact Logic.I].
    unfold fetch. apply leaves_roundtrip; [exact Logic.I|].
    intros w. cbn [snd]. exists [Posted a]. split; [reflexivity|].
    split; [constructor; [exact Ha | constructor] | simpl; lia].
Qed.

Lemma leaves_detect env r c : leaves 1 own_entry (detect env r c).
Proof.
  unfold detect. destruct (Js.gt (totalRequests c) ATTACK_THRESHOLD) eqn:Hgt.
  2:{ eapply leaves_mono; [|apply leaves_ret]. lia. }
  apply (leaves_bind 0 1).
  { apply leaves_redis_get. simpl. tauto. }
  intros v. destruct (negb (Js.truthy v)).
  2:{ eapply leaves_mono; [|apply leaves_ret]. lia. }
  apply (leaves_bind 1 0).
  { apply leaves_sendTelegramMessage. now repeat split. }
  intros _. apply (leaves_bind 0 0); [|intros; apply leaves_ret].
  unfold redis_set. apply leaves_own_send. constructor; [|constructor].
  unfold own_command. simpl. auto 12.
Qed.

Lemma leaves_limit rl key : leaves 0 own_entry (limit rl key).
Proof.
  unfold limit. apply leaves_roundtrip; [exact Logic.I|].
  intros w. unfold decide_limit. destruct (admission _ _ _ _) as [success st].
  cbn [snd]. apply (footprint_said own_entry (set_limiter _ w));
    [constructor; [exact Logic.I | constructor] | reflexivity].
Qed.

Lemma leaves_denial r (resp : NextResponse) :
  leaves 0 own_entry (incrementBlockedCounter r ;; ret resp).
Proof.
  apply (leaves_bind 0 0); [apply leaves_incrementBlockedCounter|].
  intros _. apply leaves_ret.
Qed.

Lemma leaves_checked_path env r request :
  leaves 1 own_entry (checked_path env r request).
Proof.
  unfold checked_path. apply (leaves_bind 0 1); [apply leaves_limit|].
  intros success. destruct (negb success).
  - eapply leaves_mono; [|apply leaves_denial]. lia.
  - apply (leaves_bind 0 1); [apply leaves_getAttackCounters|].
    intros c. apply (leaves_bind 1 0); [apply leaves_detect|].
    intros _. apply leaves_ret.
Qed.

Lemma leaves_middleware env request :
  leaves (if denied_outright request then 0 else 1) own_entry (middleware env request).
Proof.
  destruct (redis env) as [r|] eqn:Hr.
  2:{ rewrite (middleware_disabled _ _ Hr).
      eapply leaves_mono; [|apply leaves_ret]. lia. }
  unfold denied_outright.
  destruct (country_blocked (origin request)) eqn:Hb; cbn [orb].
  { destruct (origin request) as [c|] eqn:Hc; [|discriminate].
    rewrite (middleware_country _ _ _ _ Hr Hc Hb). apply leaves_denial. }
  destruct (some_includes ALLOWED_USER_AGENTS (identity request)) eqn:Hu; cbn [negb].
  - rewrite (middleware_checked _ _ _ Hr Hb Hu). apply leaves_checked_path.
  - rewrite (middleware_identity _ _ _ Hr Hb Hu). apply leaves_denial.
Qed.

(** X11: the calls the middleware's own code makes to the store send eight
    commands and no other.  Whatever a request does, returning or throwing,
    every command sent by [redis.incr], [redis.get], [redis.set] or the
    pipeline of [src/middleware.ts] is the [INCR] of one of the two counters,
    the [EXPIRE ... 60 NX] of one of them, the [GET] of a counter or of the
    flag, or the [SET] of the flag to ["true"] for 60 seconds; so this code
    never deletes a key and never writes a counter other than by [INCR].  What
    the rate-limiter library sends to the store inside [ratelimit.limit] is not
    among the commands meant: the log holds that call as one [Limited] entry. *)
Theorem only_its_own_commands
  (env : ProcessEnv) (request : NextRequest) (w : World) :
  exists tr,
    log (middleware env request w).2 = log w ++ tr /\
    forall c reply, In (Ran c reply) tr -> own_command c.
Proof.
  destruct (leaves_middleware env request w) as [tr [Hl [HG _]]].
  exists tr. split; [exact Hl|]. intros c rp Hin.
  exact (proj1 (List.Forall_forall _ _) HG (Ran c rp) Hin).
Qed.

(** X12: at most one alert per request, and only above the threshold.
    Whatever a request does, at most one message reaches Telegram, none when
    the country or the identity check denies the request; a message that does
    reports a total above 10000 ([>] of JavaScript), that total divided by 60
    to one decimal as the strength, and the total less the blocked count as the
    passed requests. *)
Theorem alerts_are_rare_and_founded
  (env : ProcessEnv) (request : NextRequest) (w : World) :
  exists tr,
    log (middleware env request w).2 = log w ++ tr /\
    (length (alerts tr) <= if denied_outright request then 0 else 1)%nat /\
    forall a, In a (alerts tr) -> well_founded_alert a.
Proof.
  destruct (leaves_middleware env request w) as [tr [Hl [HG Hn]]].
  exists tr. split; [exact Hl|]. split; [exact Hn|].
  intros a Hin. unfold alerts in Hin. apply in_flat_map in Hin as [e [He Ha]].
  pose proof (proj1 (List.Forall_forall _ _) HG e He) as Hown.
  destruct e; simpl in Ha; try contradiction.
  destruct Ha as [<-|[]]. exact Hown.
Qed.
